(** * Media pipeline of [src/app/page.tsx]: a shallow embedding

    The page's engineering lives in a handful of module-level functions:
    [enhanceOne] / [applySharpen] / [clamp] (still-image enhancement),
    [createVideoFromImage] / [drawVideoFrame] / [wrapText] (frame loop and
    text layout), [transcodeToMp4] (container conversion), the
    [processFiles] and [onGenerateVideo] callbacks (batch and video
    drivers), and [detectClothing] / [normalizeLabel] / [buildScript]
    (labels and script).  Each is translated below,
    keeping the source's names, and the properties the specification states
    about them are proved or refuted on the translation.

    Conventions.
    - A JavaScript [number] that takes part in arithmetic is a binary64
      [float] (Rocq's primitive floats implement exactly IEEE 754 binary64).
      Array indices, coordinates and counters are integers in [Z].
    - A [Uint8ClampedArray] is a [list Z] with stdpp's lookup and insert; a
      store converts with the platform's round-half-to-even-and-clamp rule.
    - A JavaScript string is its list of UTF-16 code units.
    - Browser services (bitmap decoding, canvas drawing, the encoder, the
      detection models) are fields of a record the function takes. *)

From Stdlib Require Import ZArith Floats Lia.
From stdpp Require Import list strings gmap.

Set Warnings "-inexact-float".

(** ** JavaScript numbers *)

Module JsNum.

(** An integer that is exactly representable (every use below is a byte,
    a small counter or a string length). *)
Definition of_Z (z : Z) : float := PrimFloat.of_uint63 (Uint63.of_Z z).

(** [Math.min] and [Math.max] on two arguments: NaN is contagious. *)
Definition min (a b : float) : float :=
  if PrimFloat.is_nan a || PrimFloat.is_nan b then PrimFloat.nan
  else if (a <? b)%float then a else b.

Definition max (a b : float) : float :=
  if PrimFloat.is_nan a || PrimFloat.is_nan b then PrimFloat.nan
  else if (a <? b)%float then b else a.

(** [Math.floor] of a finite number, as an integer. *)
Definition floor (f : float) : option Z :=
  match Prim2SF f with
  | S754_zero _ => Some 0%Z
  | S754_finite s m e =>
      Some (Z.shiftl (if s then Z.neg m else Z.pos m) e)
  | _ => None
  end.

(** Round to the nearest integer, ties to the even one. *)
Definition round_half_even (f : float) : Z :=
  match Prim2SF f with
  | S754_finite s m e =>
      let v := (if s then Z.neg m else Z.pos m) in
      if (0 <=? e)%Z then Z.shiftl v e
      else
        let d := Z.shiftl 1 (- e) in
        let q := (v / d)%Z in
        let r := (v mod d)%Z in
        match (2 * r ?= d)%Z with
        | Lt => q
        | Gt => (q + 1)%Z
        | Eq => if Z.even q then q else (q + 1)%Z
        end
  | _ => 0%Z
  end.

(** The conversion a [Uint8ClampedArray] applies to a stored number:
    NaN becomes 0, the value is clamped to 0..255 and rounded to the
    nearest integer with ties to even. *)
Definition to_uint8_clamp (f : float) : Z :=
  if PrimFloat.is_nan f then 0%Z
  else if (f <=? 0)%float then 0%Z
  else if (255 <=? f)%float then 255%Z
  else round_half_even f.

End JsNum.

(** ** Typed arrays *)

Module U8.

(** [a[i]] read as a number: a missing element is [undefined], which
    turns into NaN as soon as it is multiplied or added. *)
Definition get (a : list Z) (i : Z) : float :=
  if (i <? 0)%Z then PrimFloat.nan
  else match a !! Z.to_nat i with
       | Some v => JsNum.of_Z v
       | None => PrimFloat.nan
       end.

(** [a[i] = v]: a store outside the array is ignored. *)
Definition set (a : list Z) (i : Z) (v : float) : list Z :=
  if (i <? 0)%Z then a
  else <[Z.to_nat i := JsNum.to_uint8_clamp v]> a.

End U8.

(** ** Still-image enhancement: [clamp], [applySharpen] *)

Record ImageData := mkImageData {
  width : Z;
  height : Z;
  data : list Z
}.

(** The invariant every [ImageData] built by the platform satisfies. *)
Definition wf_image (img : ImageData) : Prop :=
  (0 < width img)%Z /\ (0 < height img)%Z /\
  Z.of_nat (length (data img)) = (4 * width img * height img)%Z /\
  Forall (fun v => (0 <= v <= 255)%Z) (data img).

(** [function clamp(value)] *)
Definition clamp (value : float) : float :=
  JsNum.max 0 (JsNum.min 255 value).

(** [const weights = [...]] *)
Definition weights (intensity : float) : list float :=
  [ 0; -1 * intensity; 0;
    -1 * intensity; 1 + 4 * intensity; -1 * intensity;
    0; -1 * intensity; 0 ]%float.

(** [const getIndex = (x, y) => (y * width + x) * 4] *)
Definition getIndex (width x y : Z) : Z := ((y * width + x) * 4)%Z.

(** The order in which the two kernel loops visit [(kx, ky)]:
    [ky] outside, [kx] inside, [weightIndex] counting along. *)
Definition kernel_offsets : list (Z * Z) :=
  ky ← [-1; 0; 1]%Z; kx ← [-1; 0; 1]%Z; [(kx, ky)].

(** One accumulator of the kernel loops ([r], [g] or [b], for channel
    offset 0, 1 or 2): starts at 0 and adds [copy[idx + ch] * weight]. *)
Definition accumulate (copy : list Z) (w : Z) (ws : list float)
    (x y ch : Z) : float :=
  foldl (fun acc '((kx, ky), weight) =>
           (acc + U8.get copy (getIndex w (x + kx) (y + ky) + ch) * weight)%float)
        0%float (zip kernel_offsets ws).

(** The body of the [x] loop: three stores into [data] at [dest],
    [dest + 1] and [dest + 2]. *)
Definition sharpen_pixel (copy : list Z) (w : Z) (ws : list float)
    (d : list Z) (x y : Z) : list Z :=
  let dest := getIndex w x y in
  let d1 := U8.set d dest
              (clamp (U8.get d dest + accumulate copy w ws x y 0)) in
  let d2 := U8.set d1 (dest + 1)
              (clamp (U8.get d1 (dest + 1) + accumulate copy w ws x y 1)) in
  U8.set d2 (dest + 2)
         (clamp (U8.get d2 (dest + 2) + accumulate copy w ws x y 2)).

Definition sharpen_row (copy : list Z) (w : Z) (ws : list float)
    (d : list Z) (y : Z) : list Z :=
  foldl (fun d x => sharpen_pixel copy w ws d x y) d (seqZ 1 (w - 2)).

(** [function applySharpen(imageData, intensity)]: [copy] is the snapshot
    taken on entry, [data] is updated in place and handed back. *)
Definition applySharpen (imageData : ImageData) (intensity : float)
    : ImageData :=
  let copy := data imageData in
  let ws := weights intensity in
  mkImageData (width imageData) (height imageData)
    (foldl (sharpen_row copy (width imageData) ws)
           (data imageData) (seqZ 1 (height imageData - 2))).

(** A pixel's four samples. *)
Definition pixel (img : ImageData) (x y : Z) : list (option Z) :=
  let i := Z.to_nat (getIndex (width img) x y) in
  [ data img !! i; data img !! (i + 1)%nat;
    data img !! (i + 2)%nat; data img !! (i + 3)%nat ].

(** The value the loop body stores for channel [c] of pixel [(x, y)] when
    the base sample [data[dest + c]] is read from [d]. *)
Definition stored (copy : list Z) (w : Z) (ws : list float)
    (d : list Z) (x y c : Z) : Z :=
  JsNum.to_uint8_clamp
    (clamp (U8.get d (getIndex w x y + c) + accumulate copy w ws x y c)).

(** The loop body on a position, and the positions in visiting order. *)
Definition step (copy : list Z) (w : Z) (ws : list float)
    (d : list Z) (p : Z * Z) : list Z :=
  sharpen_pixel copy w ws d p.1 p.2.

Definition positions (w h : Z) : list (Z * Z) :=
  y ← seqZ 1 (h - 2); x ← seqZ 1 (w - 2); [(x, y)].

(** Whether some pixel of the 3×3 neighbourhood of [(x, y)] differs from
    the centre pixel (non-zero local contrast). *)
Definition has_contrast (img : ImageData) (x y : Z) : bool :=
  existsb (fun '(kx, ky) =>
             bool_decide (pixel img (x + kx) (y + ky) ≠ pixel img x y))
          kernel_offsets.

(** ** [enhanceOne] *)

Abbreviation jsstring := (list N).

Record Blob := mkBlob { blob_bytes : list Z; blob_type : string }.

Record File := mkFile { file_name : jsstring; file_bytes : list Z }.

Record ProcessingOptions := mkOptions {
  scale : positive;
  brightness : float;
  saturation : float;
  sharpen : float
}.

(** A decoded bitmap has at least one pixel on each side. *)
Record ImageBitmap := mkBitmap {
  bm_width : positive;
  bm_height : positive;
  bm_pixels : list Z
}.

(** [ctx.filter = `brightness(${b}) saturate(${s})`], kept structured. *)
Record CanvasFilter := mkFilter { f_brightness : float; f_saturate : float }.

Inductive result (A : Type) : Type :=
| Ok (a : A)
| Err (message : string).
Arguments Ok {A} a.
Arguments Err {A} message.

Definition bind_result {A B} (r : result A) (k : A → result B) : result B :=
  match r with
  | Ok a => k a
  | Err e => Err e
  end.

Declare Scope result_scope.
Delimit Scope result_scope with result.
Notation "x <- r ;; k" := (bind_result r (fun x => k))
  (at level 100, r at next level, right associativity) : result_scope.

(** The browser services [enhanceOne] calls. *)
Record Browser := mkBrowser {
  (** [createImageBitmap(file)]; [None] when the promise rejects. *)
  createImageBitmap : File → option ImageBitmap;
  (** whether [canvas.getContext("2d")] returns a context *)
  getContext2d : bool;
  (** the pixels [getImageData] reads back after the smoothed, filtered
      [drawImage] onto a canvas of the given size *)
  drawImage : CanvasFilter → ImageBitmap → Z → Z → list Z;
  (** [canvas.toBlob] as wrapped by [canvasToBlob]; [None] for a null blob *)
  toBlob : ImageData → option (list Z);
  createObjectURL : list Z → jsstring
}.

Record EnhanceResult := mkEnhanceResult {
  canvas : ImageData;
  blob : Blob;
  url : jsstring
}.

(** The filter line 554 installs. *)
Definition ctx_filter (opts : ProcessingOptions) : CanvasFilter :=
  mkFilter (brightness opts) (saturation opts).

(** [imageData] of line 556: the upscaled, colour-adjusted buffer. *)
Definition resampled (B : Browser) (bm : ImageBitmap)
    (opts : ProcessingOptions) : ImageData :=
  let cw := Z.pos (bm_width bm * scale opts) in
  let ch := Z.pos (bm_height bm * scale opts) in
  mkImageData cw ch (drawImage B (ctx_filter opts) bm cw ch).

(** [function canvasToBlob(canvas, type, quality)] *)
Definition canvasToBlob (B : Browser) (c : ImageData) (type : string)
    : result Blob :=
  match toBlob B c with
  | None => Err "Impossible de générer le blob."
  | Some bytes => Ok (mkBlob bytes type)
  end.

(** [async function enhanceOne(file, opts)] *)
Definition enhanceOne (B : Browser) (file : File) (opts : ProcessingOptions)
    : result EnhanceResult :=
  (imageBitmap <- match createImageBitmap B file with
                  | Some bm => Ok bm
                  | None => Err "InvalidStateError"
                  end;;
   if negb (getContext2d B) then Err "Impossible d’accéder au canvas."
   else
     let imageData := resampled B imageBitmap opts in
     let final :=
       if (0 <? sharpen opts)%float
       then applySharpen imageData (sharpen opts)
       else imageData in
     blob <- canvasToBlob B final "image/png";;
     Ok (mkEnhanceResult final blob (createObjectURL B (blob_bytes blob))))%result.

(** The clamp the specification describes, for comparison with the code. *)
Definition spec_clamp (lo hi v : float) : float :=
  if (v <? lo)%float then lo else if (hi <? v)%float then hi else v.

(** The options after the clamping the specification describes. *)
Definition spec_clamped (opts : ProcessingOptions) : ProcessingOptions :=
  mkOptions (scale opts)
    (spec_clamp 0.5 2 (brightness opts))
    (spec_clamp 0.5 2 (saturation opts))
    (spec_clamp 0 1 (sharpen opts)).

(** ** Strings *)

Module Js.

(** An ASCII literal as a JavaScript string. *)
Definition str (s : string) : jsstring :=
  Ascii.N_of_ascii <$> String.list_ascii_of_string s.

Definition space : N := 32.
Definition hash : N := 35.

(** Truthiness of a string: non-empty. *)
Definition truthy (s : jsstring) : bool :=
  match s with [] => false | _ => true end.

(** The characters [\s] matches: ECMAScript WhiteSpace and
    LineTerminator code points. *)
Definition is_space (c : N) : bool :=
  ((9 <=? c) && (c <=? 13) || (c =? 32) || (c =? 160) || (c =? 5760)
   || (8192 <=? c) && (c <=? 8202) || (c =? 8232) || (c =? 8233)
   || (c =? 8239) || (c =? 8287) || (c =? 12288) || (c =? 65279))%N.

(** [s.replace(/\s+/g, "")]: every maximal run of whitespace is
    replaced by the empty string. *)
Fixpoint strip_spaces (s : jsstring) : jsstring :=
  match s with
  | [] => []
  | c :: s' => if is_space c then strip_spaces s' else c :: strip_spaces s'
  end.

(** [s.split(" ")] *)
Fixpoint split (s : jsstring) : list jsstring :=
  match s with
  | [] => [[]]
  | c :: s' =>
      if (c =? space)%N then [] :: split s'
      else match split s' with
           | w :: ws => (c :: w) :: ws
           | [] => [[c]]
           end
  end.

(** ASCII letters and digits. *)
Definition is_alnum (c : N) : bool :=
  ((48 <=? c) && (c <=? 57) || (65 <=? c) && (c <=? 90)
   || (97 <=? c) && (c <=? 122))%N.

End Js.

(** ** Text layout: [wrapText] *)

(** [tentative.length * (fontSize * 0.55) > maxWidth] *)
Definition too_wide (line : jsstring) (fontSize maxWidth : float) : bool :=
  (maxWidth <? JsNum.of_Z (Z.of_nat (length line)) * (fontSize * 0.55))%float.

(** The body of the [for (const word of words)] loop on the pair
    [(lines, currentLine)]. *)
Definition wrap_step (fontSize maxWidth : float)
    (st : list jsstring * jsstring) (word : jsstring)
    : list jsstring * jsstring :=
  let '(lines, currentLine) := st in
  let tentative :=
    if Js.truthy currentLine then currentLine ++ Js.space :: word else word in
  if too_wide tentative fontSize maxWidth then
    (if Js.truthy currentLine then lines ++ [currentLine] else lines, word)
  else (lines, tentative).

(** [function wrapText(text, fontSize, maxWidth)] *)
Definition wrapText (text : jsstring) (fontSize maxWidth : float)
    : list jsstring :=
  let words := Js.split text in
  let '(lines, currentLine) :=
    foldl (wrap_step fontSize maxWidth) ([], []) words in
  if Js.truthy currentLine then lines ++ [currentLine] else lines.

(** The loop invariant of [wrapText] once the words [seen] have been
    consumed: a line that is too wide is one of the words, and the lines
    and the current line hold exactly the non-empty words seen, whole and
    in order. *)
Definition wrap_inv (fontSize maxWidth : float) (words seen : list jsstring)
    (st : list jsstring * jsstring) : Prop :=
  (∀ l, l ∈ st.1 → too_wide l fontSize maxWidth = true → l ∈ words) ∧
  (st.2 ≠ [] → too_wide st.2 fontSize maxWidth = true → st.2 ∈ words) ∧
  filter (.≠ []) ((st.1 ≫= Js.split) ++ Js.split st.2) = filter (.≠ []) seen.

(** ** Frame rendering: [drawVideoFrame] *)

(** [Math.sin] and [Math.cos]: implementation-approximated functions. *)
Record MathLib := mkMath { sin : float → float; cos : float → float }.

Definition PI : float := 0x1.921fb54442d18p+1.

Record HTMLImage := mkImage { img_width : Z; img_height : Z }.

(** What a frame does to the canvas, in order. *)
Inductive CanvasOp : Type :=
| FillRect (fillStyle : string) (globalAlpha : float) (x y w h : float)
| DrawImage (translateX translateY : float) (dx dy dw dh : float)
| FillText (fillStyle font : string) (text : jsstring) (x y : float).

(** Lines 771-773: the motion of a frame, from [progress] alone. *)
Definition zoom (progress : float) : float := (1.05 + progress * 0.15)%float.
Definition offsetX (M : MathLib) (progress : float) : float :=
  (sin M (progress * PI * 2) * 40)%float.
Definition offsetY (M : MathLib) (progress : float) : float :=
  (cos M (progress * PI * 2) * 30)%float.

(** The [for (const line of lines)] loop: one [fillText] per line,
    [textY] advancing by 48. *)
Fixpoint draw_lines (lines : list jsstring) (textY : float) : list CanvasOp :=
  match lines with
  | [] => []
  | line :: rest =>
      FillText "#222" "32px 'Inter', sans-serif" line 100 textY
      :: draw_lines rest (textY + 48)%float
  end.

(** [function drawVideoFrame(ctx, image, width, height, progress, accent,
    lines, brandingText)].  An [undefined] accent leaves [fillStyle] at the
    background colour set before. *)
Definition drawVideoFrame (M : MathLib) (image : HTMLImage)
    (width height progress : float) (accent : option string)
    (lines : list jsstring) (brandingText : jsstring) : list CanvasOp :=
  let imageRatio := (JsNum.of_Z (img_width image)
                     / JsNum.of_Z (img_height image))%float in
  let canvasRatio := (width / height)%float in
  let '(drawWidth, drawHeight) :=
    if (canvasRatio <? imageRatio)%float
    then ((height * imageRatio)%float, height)
    else (width, (width / imageRatio)%float) in
  let centerX := (width / 2)%float in
  let centerY := (height / 2)%float in
  let scaledWidth := (drawWidth * zoom progress)%float in
  let scaledHeight := (drawHeight * zoom progress)%float in
  [ FillRect "#101010" 1 0 0 width height;
    DrawImage (centerX + offsetX M progress) (centerY + offsetY M progress)
              (- scaledWidth / 2) (- scaledHeight / 2)
              scaledWidth scaledHeight;
    FillRect (default "#101010" accent) 0.8 60 (height - 520) (width - 120) 420;
    FillText "#111" "bold 48px 'Inter', sans-serif"
             (Js.str "Style & confort") 100 (height - 480) ]%float
  ++ draw_lines lines (height - 420)%float
  ++ (if Js.truthy brandingText
      then [ FillText "#111" "bold 36px 'Inter', sans-serif"
                      brandingText 100 (height - 80)%float ]
      else []).

(** ** The frame loop of [createVideoFromImage] *)

(** [const brandingText = brand ? `#${brand.replace(/\s+/g, "")}` : ""] *)
Definition brandingText (brand : jsstring) : jsstring :=
  if Js.truthy brand then Js.hash :: Js.strip_spaces brand else [].

(** The hashtag form as the specification words it: everything that is
    not a letter or a digit is removed, then [#] is put in front. *)
Definition spec_hashtag (brand : jsstring) : jsstring :=
  Js.hash :: filter (fun c => Js.is_alnum c = true) brand.

(** The [accent] table, indexed by [vibe]. *)
Definition accent_of (vibe : string) : option string :=
  if decide (vibe = "casual") then Some "#FFC285"
  else if decide (vibe = "minimal") then Some "#D6E4E5"
  else if decide (vibe = "luxury") then Some "#F8E3A1"
  else if decide (vibe = "street") then Some "#CBD5FF"
  else if decide (vibe = "romantic") then Some "#F9D5E5"
  else None.

Definition duration : float := 12000.
Definition fps : float := 30.

(** [Math.floor((duration / 1000) * fps)] *)
Definition totalFrames : Z :=
  default 0%Z (JsNum.floor ((duration / 1000) * fps)%float).

(** What the closure [animate] captures. *)
Record VideoJob := mkJob {
  job_math : MathLib;
  job_image : HTMLImage;
  job_accent : option string;
  job_lines : list jsstring;
  job_branding : jsstring
}.

(** The loop's mutable state: the counter [frame], the frames presented
    to the canvas so far (each with the [progress] it was drawn for),
    whether a [requestAnimationFrame] callback is pending, and whether
    [recorder.stop()] has been called. *)
Record LoopState := mkLoop {
  frame : Z;
  presented : list (float * list CanvasOp);
  pending : bool;
  stopped : bool
}.

(** [const animate = () => { ... }] with [total] for [totalFrames]. *)
Definition animate (job : VideoJob) (total : Z) (st : LoopState) : LoopState :=
  let progress := (JsNum.of_Z (frame st) / JsNum.of_Z total)%float in
  let ops := drawVideoFrame (job_math job) (job_image job) 1080 1920 progress
               (job_accent job) (job_lines job) (job_branding job) in
  let frame' := (frame st + 1)%Z in
  if (frame' <=? total)%Z
  then mkLoop frame' (presented st ++ [(progress, ops)]) true (stopped st)
  else mkLoop frame' (presented st ++ [(progress, ops)]) false true.

(** What an [animate] call with counter value [k] presents: the progress
    fraction [k / total] and the frame drawn for it. *)
Definition frame_call (job : VideoJob) (total k : Z) : float * list CanvasOp :=
  let progress := (JsNum.of_Z k / JsNum.of_Z total)%float in
  (progress,
   drawVideoFrame (job_math job) (job_image job) 1080 1920 progress
     (job_accent job) (job_lines job) (job_branding job)).

(** Membership of the half-open unit interval. *)
Definition in_unit_interval (p : float) : bool :=
  ((0 <=? p) && (p <? 1))%float.

(** The scheduler: as long as a callback is pending, run it on the next
    tick. *)
Fixpoint run_ticks (job : VideoJob) (total : Z) (ticks : nat) (st : LoopState)
    : LoopState :=
  match ticks with
  | O => st
  | S n =>
      if pending st
      then run_ticks job total n
             (animate job total (mkLoop (frame st) (presented st) false (stopped st)))
      else st
  end.

(** [createVideoFromImage] up to the point where [recording] resolves:
    [let frame = 0], the first [animate()] call made directly, then the
    scheduled ones. *)
Definition video_job (M : MathLib) (image : HTMLImage)
    (vibe : string) (brand script : jsstring) : VideoJob :=
  mkJob M image (accent_of vibe) (wrapText script 28 680) (brandingText brand).

Definition frame_loop (job : VideoJob) (total : Z) (ticks : nat) : LoopState :=
  run_ticks job total ticks (animate job total (mkLoop 0 [] false false)).

(** ** Transcoding: [transcodeToMp4] *)

Module Ffmpeg.

(** The in-memory file system of one [FFmpeg] instance. *)
Abbreviation fs := (gmap string (list Z)).

(** A call either returns or throws; the file system it leaves behind
    is kept in both cases. *)
Definition M (A : Type) : Type := fs → result A * fs.

Definition ret {A} (a : A) : M A := fun m => (Ok a, m).

Definition bind {A B} (c : M A) (k : A → M B) : M B :=
  fun m => match c m with
           | (Ok a, m') => k a m'
           | (Err e, m') => (Err e, m')
           end.

(** [ffmpeg.writeFile(path, data)] *)
Definition writeFile (path : string) (bytes : list Z) : M unit :=
  fun m => (Ok tt, <[path := bytes]> m).

(** [ffmpeg.readFile(path)]: throws when the file does not exist. *)
Definition readFile (path : string) : M (list Z) :=
  fun m => match m !! path with
           | Some bytes => (Ok bytes, m)
           | None => (Err "ErrnoError: FS error", m)
           end.

(** [ffmpeg.deleteFile(path)]: throws when the file does not exist. *)
Definition deleteFile (path : string) : M unit :=
  fun m => match m !! path with
           | Some _ => (Ok tt, delete path m)
           | None => (Err "ErrnoError: FS error", m)
           end.

(** The encoder behind [ffmpeg.load()] and [ffmpeg.exec(args)]: [exec]
    returns the exit code or throws, and may write files. *)
Record Core := mkCore {
  load : result unit;
  exec : list string → M Z
}.

End Ffmpeg.

Declare Scope ffmpeg_scope.
Delimit Scope ffmpeg_scope with ffmpeg.
Notation "x <- c ;; k" := (Ffmpeg.bind c (fun x => k))
  (at level 100, c at next level, right associativity) : ffmpeg_scope.
Notation "c ;;; k" := (Ffmpeg.bind c (fun _ => k))
  (at level 100, k at level 200, right associativity) : ffmpeg_scope.

Definition exec_args : list string :=
  [ "-i"; "input.webm"; "-r"; "30"; "-vf";
    "scale=1080:1920:force_original_aspect_ratio=decrease,pad=1080:1920:(ow-iw)/2:(oh-ih)/2:black";
    "-c:v"; "libx264"; "-preset"; "veryfast"; "-crf"; "23";
    "-pix_fmt"; "yuv420p"; "-movflags"; "+faststart"; "output.mp4" ].

(** [async function transcodeToMp4(webmBlob)], run on the empty file system
    of the instance [new FFmpeg()] creates.  The result is what the call
    returns or throws together with the files left in that instance. *)
Definition transcode_body (core : Ffmpeg.Core) (webmBlob : Blob)
    : Ffmpeg.M Blob :=
  (_ <- (fun m => (Ffmpeg.load core, m)) ;;
   Ffmpeg.writeFile "input.webm" (blob_bytes webmBlob) ;;;
   _ <- Ffmpeg.exec core exec_args ;;
   fileData <- Ffmpeg.readFile "output.mp4" ;;
   (let blob := mkBlob fileData "video/mp4" in
    Ffmpeg.deleteFile "input.webm" ;;;
    Ffmpeg.deleteFile "output.mp4" ;;;
    Ffmpeg.ret blob))%ffmpeg.

Definition transcodeToMp4 (core : Ffmpeg.Core) (webmBlob : Blob)
    : result Blob * Ffmpeg.fs :=
  transcode_body core webmBlob ∅.

(** ** The batch driver: [processFiles] *)

Record EnhancedImage := mkEnhanced {
  id : jsstring * Z;
  name : jsstring;
  originalUrl : jsstring;
  enhancedUrl : jsstring;
  enhancedBlob : Blob;
  e_width : Z;
  e_height : Z;
  e_scale : positive;
  clothing : list jsstring;
  script : jsstring
}.

(** What the callback closes over: the options and form fields, the
    browser, the detection models and the script template. *)
Record PageEnv := mkEnv {
  env_browser : Browser;
  options : ProcessingOptions;
  brandName : jsstring;
  vibe : string;
  modelReady : bool;
  (** [detectClothing(canvas, coco, mobilenet)] *)
  detectClothing : ImageData → result (list jsstring);
  (** [buildScript(items, brand, vibe)] *)
  buildScript : list jsstring → jsstring → string → jsstring;
  (** [brandName.trim()] *)
  trim : jsstring → jsstring;
  (** [Date.now()] *)
  now : Z
}.

(** The component state the callback touches: the gallery [enhanced],
    the [processing] flag, and what went to [console.error]. *)
Record PageState := mkState {
  enhanced : list EnhancedImage;
  processing : bool;
  console : list string
}.

(** The body of [for (const file of files)] for one file. *)
Definition process_one (env : PageEnv) (file : File) : result EnhancedImage :=
  (let originalUrl := createObjectURL (env_browser env) (file_bytes file) in
   enhancedResult <- enhanceOne (env_browser env) file (options env);;
   clothing <- (if modelReady env
                then detectClothing env (canvas enhancedResult)
                else Ok []);;
   let script := buildScript env clothing (trim env (brandName env)) (vibe env) in
   Ok (mkEnhanced (file_name file, now env) (file_name file) originalUrl
         (url enhancedResult) (blob enhancedResult)
         (width (canvas enhancedResult)) (height (canvas enhancedResult))
         (scale (options env)) clothing script))%result.

(** The loop: [results.push(...)] per file; the first throw leaves it. *)
Fixpoint process_loop (env : PageEnv) (files : list File)
    (results : list EnhancedImage) : result (list EnhancedImage) :=
  match files with
  | [] => Ok results
  | file :: rest =>
      match process_one env file with
      | Ok item => process_loop env rest (results ++ [item])
      | Err e => Err e
      end
  end.

(** [processFiles(files)]: nothing happens for an empty batch; otherwise
    [try { loop; setEnhanced(prev => [...results, ...prev]) }
     catch (error) { console.error(error) }
     finally { setProcessing(false) }]. *)
Definition processFiles (env : PageEnv) (files : list File) (st : PageState)
    : PageState :=
  match files with
  | [] => st
  | _ =>
      match process_loop env files [] with
      | Ok results => mkState (results ++ enhanced st) false (console st)
      | Err e => mkState (enhanced st) false (console st ++ [e])
      end
  end.

(** ** Test doubles used by the examples *)

(** A browser that decodes any non-empty file to a 1×1 opaque grey
    bitmap, replicates that pixel over the canvas and encodes a canvas as
    its raw samples. *)
Definition stub_browser : Browser :=
  mkBrowser
    (fun f => match file_bytes f with
              | [] => None
              | b :: _ => Some (mkBitmap 1 1 [b; b; b; 255%Z])
              end)
    true
    (fun _ bm cw ch =>
       mjoin (replicate (Z.to_nat (cw * ch)) (bm_pixels bm)))
    (fun c => Some (data c))
    (fun bytes => Js.str "blob:" ++ (Z.to_N <$> bytes)).

(** A browser whose colour transform is visible in the pixels: a 1×1
    bitmap is drawn with every colour sample multiplied by the filter's
    brightness. *)
Definition probe_browser : Browser :=
  mkBrowser
    (fun f => Some (mkBitmap 1 1 [100; 100; 100; 255]%Z))
    true
    (fun flt bm cw ch =>
       mjoin (replicate (Z.to_nat (cw * ch))
                [ JsNum.to_uint8_clamp (100 * f_brightness flt);
                  JsNum.to_uint8_clamp (100 * f_brightness flt);
                  JsNum.to_uint8_clamp (100 * f_brightness flt); 255%Z ]))
    (fun c => Some (data c))
    (fun bytes => Js.str "blob:" ++ (Z.to_N <$> bytes)).

(** A white pixel surrounded by black ones, all opaque. *)
Definition white_dot : ImageData :=
  mkImageData 3 3
    [ 0;0;0;255;  0;0;0;255;        0;0;0;255;
      0;0;0;255;  255;255;255;255;  0;0;0;255;
      0;0;0;255;  0;0;0;255;        0;0;0;255 ]%Z.

(** A grey gradient with a coloured centre. *)
Definition test3x3 : ImageData :=
  mkImageData 3 3
    [ 10;10;10;255;  20;20;20;255;  10;10;10;255;
      20;20;20;255;  100;50;7;200;  20;20;20;255;
      10;10;10;255;  20;20;20;255;  10;10;10;255 ]%Z.

Definition stub_env : PageEnv :=
  mkEnv stub_browser (mkOptions 2 1.08 1.12 0.25) [] "casual" false
        (fun _ => Ok []) (fun _ _ _ => []) (fun s => s) 0.

(** An encoder that cannot decode its input: exit code 1, no output. *)
Definition rejecting_core : Ffmpeg.Core :=
  Ffmpeg.mkCore (Ok tt) (fun _ m => (Ok 1%Z, m)).

(** An encoder that throws. *)
Definition throwing_core : Ffmpeg.Core :=
  Ffmpeg.mkCore (Ok tt) (fun _ m => (Err "aborted", m)).

(** An encoder that writes the output file it was asked for. *)
Definition working_core : Ffmpeg.Core :=
  Ffmpeg.mkCore (Ok tt)
    (fun _ m => (Ok 0%Z, <["output.mp4" := [0; 0; 0; 32]%Z]> m)).

Definition stub_math : MathLib := mkMath (fun x => x) (fun x => x).

(** A 2×2 image: it has no interior pixel. *)
Definition thin2x2 : ImageData :=
  mkImageData 2 2
    [ 1;2;3;255;  4;5;6;255;
      7;8;9;255;  10;11;12;255 ]%Z.

(** [test3x3] with a fourth row of other pixels below it. *)
Definition test3x3_far : ImageData :=
  mkImageData 3 4
    [ 10;10;10;255;  20;20;20;255;  10;10;10;255;
      20;20;20;255;  100;50;7;200;  20;20;20;255;
      10;10;10;255;  20;20;20;255;  10;10;10;255;
      90;80;70;255;  60;50;40;255;  30;20;10;255 ]%Z.

(** ** More string operations *)

Module JsText.

(** [parts.join(sep)] *)
Fixpoint join (sep : jsstring) (parts : list jsstring) : jsstring :=
  match parts with
  | [] => []
  | [x] => x
  | x :: rest => x ++ sep ++ join sep rest
  end.

(** The first word of a line. *)
Definition first_word (line : jsstring) : jsstring :=
  hd [] (Js.split line).

End JsText.

(** Every break between two consecutive lines was forced: the first word
    of the next line, put after the line and a space, is too wide. *)
Fixpoint breaks_forced (fontSize maxWidth : float) (lines : list jsstring)
    : Prop :=
  match lines with
  | a :: (b :: _) as rest =>
      too_wide (a ++ Js.space :: JsText.first_word b) fontSize maxWidth = true
      ∧ breaks_forced fontSize maxWidth rest
  | _ => True
  end.

(** The texts a frame draws, in drawing order, and where. *)
Definition texts_drawn (ops : list CanvasOp) : list jsstring :=
  omap (fun op => match op with
                  | FillText _ _ text _ _ => Some text
                  | _ => None
                  end) ops.

Definition text_columns (ops : list CanvasOp) : list float :=
  omap (fun op => match op with
                  | FillText _ _ _ x _ => Some x
                  | _ => None
                  end) ops.

(** ** Label detection: [normalizeLabel], [detectClothing] *)

Module Label.

Definition underscore : N := 95.

(** [label.replace(/_/g, " ")] *)
Definition replace_underscores (s : jsstring) : jsstring :=
  (fun c => if (c =? underscore)%N then Js.space else c) <$> s.

(** [s.replace(/\s+/g, " ")]: scanning left to right, [in_run] tells
    whether the previous character was whitespace, in which case the
    current run has already been replaced by its single space. *)
Fixpoint collapse_from (in_run : bool) (s : jsstring) : jsstring :=
  match s with
  | [] => []
  | c :: s' =>
      if Js.is_space c
      then (if in_run then collapse_from true s'
            else Js.space :: collapse_from true s')
      else c :: collapse_from false s'
  end.

Definition collapse_spaces (s : jsstring) : jsstring := collapse_from false s.

(** [s.trim()] removes the same characters as [\s] from both ends. *)
Fixpoint trim_start (s : jsstring) : jsstring :=
  match s with
  | [] => []
  | c :: s' => if Js.is_space c then trim_start s' else s
  end.

Fixpoint trim_end (s : jsstring) : jsstring :=
  match s with
  | [] => []
  | c :: s' =>
      match trim_end s' with
      | [] => if Js.is_space c then [] else [c]
      | t => c :: t
      end
  end.

Definition trim (s : jsstring) : jsstring := trim_end (trim_start s).

(** The characters [\w] matches. *)
Definition is_word (c : N) : bool :=
  Js.is_alnum c || (c =? underscore)%N.

(** [char.toUpperCase()] for a character [\w] matches. *)
Definition to_upper (c : N) : N :=
  if ((97 <=? c) && (c <=? 122))%N then (c - 32)%N else c.

(** [s.replace(/\b\w/g, (char) => char.toUpperCase())]: a word character
    is replaced when it starts the string or follows a character that is
    not a word character. *)
Fixpoint capitalize_from (after_word : bool) (s : jsstring) : jsstring :=
  match s with
  | [] => []
  | c :: s' =>
      (if is_word c && negb after_word then to_upper c else c)
      :: capitalize_from (is_word c) s'
  end.

(** [function normalizeLabel(label)] *)
Definition normalizeLabel (label : jsstring) : jsstring :=
  capitalize_from false (trim (collapse_spaces (replace_underscores label))).

(** [const clothingKeywords = [...]] *)
Definition clothingKeywords : list jsstring :=
  Js.str <$>
    [ "shirt"; "t-shirt"; "tee"; "top"; "blouse"; "dress"; "gown"; "skirt";
      "jacket"; "coat"; "trench"; "jean"; "denim"; "pant"; "trouser";
      "short"; "sweater"; "hoodie"; "cardigan"; "vest"; "suit"; "blazer";
      "scarf"; "hat"; "cap"; "beanie"; "bag"; "handbag"; "purse";
      "backpack"; "belt"; "shoe"; "sneaker"; "boot"; "heel"; "loafer";
      "sandal"; "watch"; "bracelet"; "ring"; "necklace"; "earring";
      "sunglass"; "glasses" ].

(** [const cocoClothingLabels = new Set([...])] *)
Definition cocoClothingLabels : list jsstring :=
  Js.str <$>
    [ "person"; "backpack"; "umbrella"; "handbag"; "tie"; "suitcase" ].

(** String equality, and [set.has(x)] on a [Set] kept as the list of its
    elements in insertion order. *)
Fixpoint str_eqb (a b : jsstring) : bool :=
  match a, b with
  | [], [] => true
  | x :: a', y :: b' => (x =? y)%N && str_eqb a' b'
  | _, _ => false
  end.

Definition has (set : list jsstring) (x : jsstring) : bool :=
  existsb (str_eqb x) set.

(** [detected.add(x)] *)
Definition set_add (x : jsstring) (detected : list jsstring) : list jsstring :=
  if has detected x then detected else detected ++ [x].

(** [s.startsWith(sub)] and [s.includes(sub)] *)
Fixpoint starts_with (s sub : jsstring) : bool :=
  match sub, s with
  | [], _ => true
  | _ :: _, [] => false
  | a :: sub', b :: s' => (a =? b)%N && starts_with s' sub'
  end.

Fixpoint includes (s sub : jsstring) : bool :=
  starts_with s sub
  || match s with
     | [] => false
     | _ :: s' => includes s' sub
     end.

(** The loop over the predictions of the COCO model. *)
Definition add_coco (detected : list jsstring) (classes : list jsstring)
    : list jsstring :=
  foldl (fun d class =>
           if has cocoClothingLabels class
           then set_add (normalizeLabel class) d else d)
        detected classes.

(** The two nested loops over the predictions of MobileNet and the
    keywords; [toLowerCase] is the platform's. *)
Definition add_mobilenet (toLowerCase : jsstring → jsstring)
    (detected : list jsstring) (classNames : list jsstring) : list jsstring :=
  foldl (fun d className =>
           let normalized := toLowerCase className in
           foldl (fun d keyword =>
                    if includes normalized keyword
                    then set_add (normalizeLabel keyword) d else d)
                 d clothingKeywords)
        detected classNames.

(** [async function detectClothing(canvas, cocoModel, mobilenetModel)].
    [decoded] tells whether [image.decode()] resolves; a model is [None]
    when it is null, and otherwise gives the classes it predicts for the
    image or the error it rejects with. *)
Definition detectClothing (toLowerCase : jsstring → jsstring) (decoded : bool)
    (cocoModel mobilenetModel : option (result (list jsstring)))
    : result (list jsstring) :=
  if negb decoded then Err "EncodingError"
  else
    (detected <- match cocoModel with
                 | None => Ok []
                 | Some predictions =>
                     classes <- predictions;; Ok (add_coco [] classes)
                 end;;
     match mobilenetModel with
     | None => Ok detected
     | Some predictions =>
         classNames <- predictions;;
         Ok (add_mobilenet toLowerCase detected classNames)
     end)%result.

(** The labels [detectClothing] can ever return. *)
Definition vocabulary : list jsstring :=
  normalizeLabel <$> (cocoClothingLabels ++ clothingKeywords).

(** A label in normal form: no underscore, whitespace only as single
    spaces between other characters.  [after_space] tells whether the
    previous character was a space (or the string starts here). *)
Fixpoint spaced_from (after_space : bool) (s : jsstring) : bool :=
  match s with
  | [] => true
  | c :: s' =>
      if Js.is_space c
      then (c =? Js.space)%N && negb after_space && spaced_from true s'
      else negb (c =? underscore)%N && spaced_from false s'
  end.

Definition ends_with_space (s : jsstring) : bool :=
  match last s with
  | Some c => Js.is_space c
  | None => false
  end.

Definition normal (s : jsstring) : bool :=
  spaced_from true s && negb (ends_with_space s).

End Label.

(** ** Script assembly: [buildScript] *)

Module Script.

(** A source literal, given in UTF-8, as UTF-16 code units (the literals
    of the page stay within the Basic Multilingual Plane). *)
Fixpoint utf8_decode (bytes : list N) : jsstring :=
  match bytes with
  | [] => []
  | b :: rest =>
      if (b <? 128)%N then b :: utf8_decode rest
      else if (b <? 224)%N then
        match rest with
        | c :: rest' => ((b - 192) * 64 + (c - 128))%N :: utf8_decode rest'
        | [] => []
        end
      else
        match rest with
        | c :: d :: rest' =>
            ((b - 224) * 4096 + (c - 128) * 64 + (d - 128))%N
            :: utf8_decode rest'
        | _ => []
        end
  end.

Definition lit (s : string) : jsstring := utf8_decode (Js.str s).

(** The [intro] table, indexed by [vibe]. *)
Definition intro_of (vibe : string) : option jsstring :=
  if decide (vibe = "casual")
  then Some (lit "Hello la team, je vous montre ma tenue du jour ultra comfy !")
  else if decide (vibe = "minimal")
  then Some (lit "Mood épuré aujourd’hui, on mise sur les essentiels bien cut.")
  else if decide (vibe = "luxury")
  then Some (lit "Zoom sur une pièce premium qui apporte tout le glow à la tenue.")
  else if decide (vibe = "street")
  then Some (lit "Style street du jour, effortless et super stylé.")
  else if decide (vibe = "romantic")
  then Some (lit "Envie d’un look doux et romantique, je vous montre ça !")
  else None.

(** The [vibeLine] table. *)
Definition vibeLine_of (vibe : string) : option jsstring :=
  if decide (vibe = "casual")
  then Some (lit "Je suis prête pour enchaîner mes petits rendez-vous cosy.")
  else if decide (vibe = "minimal")
  then Some (lit "Tout est ultra clean, sans prise de tête, juste chic.")
  else if decide (vibe = "luxury")
  then Some (lit "Chaque détail respire la qualité, c’est absolument sublime.")
  else if decide (vibe = "street")
  then Some (lit "Ça match avec mes sneakers du moment et ça donne une vibe très cool.")
  else if decide (vibe = "romantic")
  then Some (lit "Les volumes sont légers, c’est le combo parfait pour un mood délicat.")
  else None.

(** A table entry inside a template literal: a missing one reads
    [undefined]. *)
Definition interpolate (entry : option jsstring) : jsstring :=
  default (Js.str "undefined") entry.

Definition fallback_core : jsstring :=
  lit "La silhouette reste fluide et confortable, parfaite pour bouger toute la journée.".

Definition outro : jsstring :=
  lit "Dites-moi ce que vous en pensez et stay tuned pour la suite !".

(** The enumeration inside [core], for a non-empty [items]. *)
Definition enumerate (toLowerCase : jsstring → jsstring)
    (items : list jsstring) : jsstring :=
  match items with
  | [item] => lit "le " ++ toLowerCase item
  | _ =>
      JsText.join (Js.str ", ")
        (toLowerCase <$> take (length items - 1) items)
      ++ lit " et le " ++ toLowerCase (default [] (last items))
  end.

Definition core (toLowerCase : jsstring → jsstring)
    (items : list jsstring) : jsstring :=
  match items with
  | [] => fallback_core
  | _ =>
      lit "On adore " ++ enumerate toLowerCase items
      ++ lit ", c’est super flatteur et méga confortable."
  end.

(** [function buildScript(items, brand, vibe)]; [toLowerCase] is the
    platform's. *)
Definition buildScript (toLowerCase : jsstring → jsstring)
    (items : list jsstring) (brand : jsstring) (vibe : string) : jsstring :=
  let mentionBrand := if Js.truthy brand then brand ++ [Js.space] else [] in
  interpolate (intro_of vibe) ++ [Js.space] ++ mentionBrand
  ++ core toLowerCase items ++ [Js.space]
  ++ interpolate (vibeLine_of vibe) ++ [Js.space] ++ outro.

(** [sub] occurs in [s] as a contiguous piece. *)
Definition occurs_in (sub s : jsstring) : Prop :=
  ∃ before after, s = before ++ sub ++ after.

End Script.

(** ** Video creation: [createVideoFromImage], [onGenerateVideo] *)

(** What the browser provides to a video job. *)
Record VideoPlatform := mkVideoPlatform {
  (** whether [canvas.getContext("2d")] returns a context *)
  vp_context : bool;
  (** [loadImage(src)]; [None] when the image fires [onerror] *)
  vp_loadImage : jsstring → option HTMLImage;
  (** whether [new MediaRecorder(stream, { mimeType })] is accepted *)
  vp_recorder : bool;
  vp_math : MathLib;
  (** the bytes the recorder has delivered when it stops, for the frames
      presented to the canvas since it started *)
  vp_record : list (float * list CanvasOp) → list Z;
  vp_core : Ffmpeg.Core;
  vp_createObjectURL : list Z → jsstring
}.

Record VideoResult := mkVideoResult { videoUrl : jsstring; videoBlob : Blob }.

(** [async function createVideoFromImage(item, vibe, brand, script)]: the
    frame loop is run for the ticks it needs to stop the recorder, which
    is when [recording] resolves. *)
Definition createVideoFromImage (P : VideoPlatform) (item : EnhancedImage)
    (vibe : string) (brand script : jsstring) : result VideoResult :=
  if negb (vp_context P) then Err "Canvas non disponible pour la vidéo."
  else
    (image <- match vp_loadImage P (enhancedUrl item) with
              | Some image => Ok image
              | None => Err "Impossible de charger l’image."
              end;;
     if negb (vp_recorder P) then Err "NotSupportedError"
     else
       let job := video_job (vp_math P) image vibe brand script in
       let st := frame_loop job totalFrames (Z.to_nat totalFrames) in
       let webmBlob := mkBlob (vp_record P (presented st)) "video/webm" in
       mp4Blob <- (transcodeToMp4 (vp_core P) webmBlob).1;;
       Ok (mkVideoResult (vp_createObjectURL P (blob_bytes mp4Blob)) mp4Blob))%result.

(** A gallery entry with its two optional fields [videoUrl] and
    [videoBlob], which [processFiles] leaves undefined. *)
Record GalleryEntry := mkEntry {
  g_item : EnhancedImage;
  g_videoUrl : option jsstring;
  g_videoBlob : option Blob
}.

Record VideoState := mkVideoState {
  gallery : list GalleryEntry;
  videoBusy : bool;
  video_console : list string
}.

(** [entry.id === item.id] *)
Definition same_id (a b : EnhancedImage) : bool :=
  Label.str_eqb (id a).1 (id b).1 && ((id a).2 =? (id b).2)%Z.

(** [onGenerateVideo(item)]:
    [try { result = await createVideoFromImage(...);
           setEnhanced(prev => prev.map(...)) }
     catch (error) { console.error(error) }
     finally { setVideoBusy(false) }]. *)
Definition onGenerateVideo (P : VideoPlatform) (vibe : string)
    (brandName : jsstring) (trim : jsstring → jsstring)
    (item : GalleryEntry) (st : VideoState) : VideoState :=
  match createVideoFromImage P (g_item item) vibe (trim brandName)
          (script (g_item item)) with
  | Ok result =>
      mkVideoState
        ((fun entry =>
            if same_id (g_item entry) (g_item item)
            then mkEntry (g_item entry) (Some (videoUrl result))
                   (Some (videoBlob result))
            else entry) <$> gallery st)
        false (video_console st)
  | Err e => mkVideoState (gallery st) false (video_console st ++ [e])
  end.

(** A platform for the examples: everything available, the recorder
    delivering one byte per frame. *)
Definition stub_platform (core : Ffmpeg.Core) : VideoPlatform :=
  mkVideoPlatform true (fun _ => Some (mkImage 2 2)) true stub_math
    (fun frames => replicate (length frames) 1%Z) core
    (fun bytes => Js.str "blob:" ++ (Z.to_N <$> bytes)).

Definition stub_item (n : string) (t : Z) : EnhancedImage :=
  mkEnhanced (Js.str n, t) (Js.str n) [] [] (mkBlob [] "image/png") 2 2 2 []
    (Js.str "hello").

(** * Properties *)

(** ** Facts about typed-array stores *)

Lemma U8_set_length (a : list Z) i v : length (U8.set a i v) = length a.
Proof. unfold U8.set. case_match; [done | apply length_insert]. Qed.

Lemma U8_set_lookup_ne (a : list Z) i v (k : nat) :
  Z.of_nat k ≠ i → U8.set a i v !! k = a !! k.
Proof.
  intros Hne. unfold U8.set. case_match; [done |].
  apply list_lookup_insert_ne. lia.
Qed.

Lemma U8_set_lookup_eq (a : list Z) i v :
  (0 <= i < Z.of_nat (length a))%Z →
  U8.set a i v !! Z.to_nat i = Some (JsNum.to_uint8_clamp v).
Proof.
  intros Hi. unfold U8.set.
  destruct (i <? 0)%Z eqn:E; [lia |].
  apply list_lookup_insert_eq. lia.
Qed.

Lemma U8_get_ext (a b : list Z) i :
  a !! Z.to_nat i = b !! Z.to_nat i → U8.get a i = U8.get b i.
Proof. intros H. unfold U8.get. by rewrite H. Qed.

(** ** The footprint of the sharpen loops *)

Section Sharpen.
Variables (copy : list Z) (w : Z) (ws : list float).

Lemma sharpen_pixel_length d x y :
  length (sharpen_pixel copy w ws d x y) = length d.
Proof. unfold sharpen_pixel. by rewrite !U8_set_length. Qed.

Lemma sharpen_pixel_frame d x y (k : nat) :
  (∀ c, (0 <= c < 3)%Z → Z.of_nat k ≠ (getIndex w x y + c)%Z) →
  sharpen_pixel copy w ws d x y !! k = d !! k.
Proof.
  intros Hk. unfold sharpen_pixel.
  rewrite !U8_set_lookup_ne; [done | | |].
  - specialize (Hk 0%Z). lia.
  - apply (Hk 1%Z). lia.
  - apply (Hk 2%Z). lia.
Qed.

Lemma sharpen_pixel_hit d x y c :
  (0 <= c < 3)%Z →
  (0 <= getIndex w x y)%Z →
  (getIndex w x y + 2 < Z.of_nat (length d))%Z →
  sharpen_pixel copy w ws d x y !! Z.to_nat (getIndex w x y + c)
  = Some (stored copy w ws d x y c).
Proof.
  intros Hc H0 Hlen. unfold sharpen_pixel, stored.
  set (dest := getIndex w x y) in *.
  assert (c = 0 ∨ c = 1 ∨ c = 2)%Z as [-> | [-> | ->]] by lia.
  - rewrite !U8_set_lookup_ne by lia.
    rewrite Z.add_0_r. rewrite U8_set_lookup_eq by lia. done.
  - rewrite U8_set_lookup_ne by lia.
    rewrite U8_set_lookup_eq by (rewrite U8_set_length; lia).
    do 4 f_equal. apply U8_get_ext. apply U8_set_lookup_ne. lia.
  - rewrite U8_set_lookup_eq by (rewrite !U8_set_length; lia).
    do 4 f_equal. apply U8_get_ext.
    rewrite !U8_set_lookup_ne by lia. done.
Qed.

Lemma steps_length ps d : length (foldl (step copy w ws) d ps) = length d.
Proof.
  revert d. induction ps as [| p ps IH]; intros d; [done |].
  simpl. rewrite IH. apply sharpen_pixel_length.
Qed.

Lemma steps_frame ps d (k : nat) :
  (∀ p c, p ∈ ps → (0 <= c < 3)%Z →
          Z.of_nat k ≠ (getIndex w p.1 p.2 + c)%Z) →
  foldl (step copy w ws) d ps !! k = d !! k.
Proof.
  revert d. induction ps as [| p ps IH]; intros d Hk; [done |].
  simpl. rewrite IH.
  - apply sharpen_pixel_frame. intros c Hc. apply Hk; [left | done].
  - intros q c Hq Hc. apply Hk; [by right | done].
Qed.

(** Two distinct in-range pixels have disjoint sample ranges. *)
Lemma getIndex_inj x y x' y' c c' :
  (0 <= x < w)%Z → (0 <= x' < w)%Z →
  (0 <= c < 4)%Z → (0 <= c' < 4)%Z →
  (getIndex w x y + c = getIndex w x' y' + c')%Z →
  x = x' ∧ y = y' ∧ c = c'.
Proof.
  unfold getIndex. intros Hx Hx' Hc Hc' Heq.
  assert (y * w + x = y' * w + x')%Z as Hxy by lia.
  assert (y = y') as -> by nia.
  lia.
Qed.

Lemma steps_hit ps d x y c :
  NoDup ps →
  (∀ p, p ∈ ps → (0 <= p.1 < w)%Z ∧ (0 <= p.2)%Z) →
  (x, y) ∈ ps →
  (0 <= c < 3)%Z →
  (getIndex w x y + 2 < Z.of_nat (length d))%Z →
  foldl (step copy w ws) d ps !! Z.to_nat (getIndex w x y + c) = Some (stored copy w ws d x y c).
Proof.
  intros Hnd Hrange Hin Hc. revert d.
  induction ps as [| p ps IH]; intros d Hlen; [by apply elem_of_nil in Hin |].
  apply NoDup_cons in Hnd as [Hp Hnd].
  assert (Hxy : (0 <= x < w)%Z ∧ (0 <= y)%Z) by (apply (Hrange (x, y)); done).
  assert (H0 : (0 <= getIndex w x y)%Z) by (unfold getIndex; nia).
  simpl. destruct (decide (p = (x, y))) as [-> | Hne].
  - rewrite steps_frame.
    + by apply sharpen_pixel_hit.
    + intros q c' Hq Hc' Heq. rewrite Z2Nat.id in Heq by lia.
      destruct (Hrange q) as [? ?]; [by right |].
      apply getIndex_inj in Heq as (? & ? & ?); [| lia ..].
      apply Hp. destruct q; simpl in *; by subst.
  - apply elem_of_cons in Hin as [Heq | Hin]; [congruence |].
    rewrite IH; [| done | intros q Hq; apply Hrange; by right | done
                 | unfold step; rewrite sharpen_pixel_length; done].
    unfold stored. do 4 f_equal. apply U8_get_ext.
    apply sharpen_pixel_frame. intros c' Hc' Heq.
    rewrite Z2Nat.id in Heq by lia.
    destruct (Hrange p) as [? ?]; [by left |].
    apply getIndex_inj in Heq as (? & ? & ?); [| lia ..].
    apply Hne. destruct p; simpl in *; by subst.
Qed.
End Sharpen.

(** ** [applySharpen] as one pass over [positions] *)

Lemma sharpen_row_flat copy w ws y xs d :
  foldl (fun d x => sharpen_pixel copy w ws d x y) d xs
  = foldl (step copy w ws) d (x ← xs; [(x, y)]).
Proof.
  revert d. induction xs as [| x xs IH]; intros d; [done |].
  simpl. by rewrite IH.
Qed.

Lemma applySharpen_flat img intensity :
  data (applySharpen img intensity)
  = foldl (step (data img) (width img) (weights intensity))
          (data img) (positions (width img) (height img)).
Proof.
  unfold applySharpen, positions. simpl.
  generalize (data img) at 2 4 as d.
  induction (seqZ 1 (height img - 2)) as [| y ys IH]; intros d; [done |].
  simpl. rewrite foldl_app, <- sharpen_row_flat. apply IH.
Qed.

Lemma elem_of_positions w h x y :
  (x, y) ∈ positions w h ↔ (1 <= x < w - 1)%Z ∧ (1 <= y < h - 1)%Z.
Proof.
  unfold positions. rewrite list_elem_of_bind. split.
  - intros (y' & Hx & Hy). apply list_elem_of_bind in Hx as (x' & Hx & Hx').
    apply list_elem_of_singleton in Hx. inversion Hx; subst.
    apply elem_of_seqZ in Hy, Hx'. lia.
  - intros [Hx Hy]. exists y. split; [| apply elem_of_seqZ; lia].
    apply list_elem_of_bind. exists x. split; [by apply list_elem_of_singleton |].
    apply elem_of_seqZ. lia.
Qed.

Lemma NoDup_positions w h : NoDup (positions w h).
Proof.
  unfold positions. apply NoDup_bind; [| | apply NoDup_seqZ].
  - intros y1 y2 [x y] _ _ H1 H2.
    apply list_elem_of_bind in H1 as (? & H1 & _).
    apply list_elem_of_bind in H2 as (? & H2 & _).
    apply list_elem_of_singleton in H1, H2. congruence.
  - intros y _. apply NoDup_bind; [| | apply NoDup_seqZ].
    + intros x1 x2 p _ _ H1 H2.
      apply list_elem_of_singleton in H1, H2. congruence.
    + intros x _. apply NoDup_singleton.
Qed.

Lemma applySharpen_length img intensity :
  length (data (applySharpen img intensity)) = length (data img).
Proof. rewrite applySharpen_flat. apply steps_length. Qed.

(** Only the three colour samples of interior pixels are ever stored to. *)
Lemma applySharpen_frame img intensity (k : nat) :
  (∀ x y c, (1 <= x < width img - 1)%Z → (1 <= y < height img - 1)%Z →
            (0 <= c < 3)%Z → Z.of_nat k ≠ (getIndex (width img) x y + c)%Z) →
  data (applySharpen img intensity) !! k = data img !! k.
Proof.
  intros Hk. rewrite applySharpen_flat. apply steps_frame.
  intros [x y] c Hin Hc. apply elem_of_positions in Hin as [Hx Hy].
  by apply Hk.
Qed.

(** C10: the sharpen pass never stores to an alpha sample: for every image
    data and every intensity, sample [4 p + 3] (the fourth sample of pixel
    number [p]) of the output buffer is the one of the input buffer, and the
    buffer keeps its size. *)
Theorem applySharpen_alpha_untouched (img : ImageData) (intensity : float) :
  length (data (applySharpen img intensity)) = length (data img) ∧
  ∀ p : nat,
    data (applySharpen img intensity) !! (4 * p + 3)%nat
    = data img !! (4 * p + 3)%nat.
Proof.
  split; [apply applySharpen_length |].
  intros p. apply applySharpen_frame.
  intros x y c _ _ Hc. unfold getIndex. lia.
Qed.

(** Border pixels keep all four samples. *)
Lemma applySharpen_border img intensity x y :
  (0 <= x < width img)%Z → (0 <= y < height img)%Z →
  (x = 0 ∨ x = width img - 1 ∨ y = 0 ∨ y = height img - 1)%Z →
  pixel (applySharpen img intensity) x y = pixel img x y.
Proof.
  intros Hx Hy Hb.
  assert (H0 : (0 <= getIndex (width img) x y)%Z) by (unfold getIndex; nia).
  assert (Hs : ∀ j : nat, (j < 4)%nat →
    data (applySharpen img intensity) !! (Z.to_nat (getIndex (width img) x y) + j)%nat
    = data img !! (Z.to_nat (getIndex (width img) x y) + j)%nat).
  { intros j Hj. apply applySharpen_frame. intros x' y' c Hx' Hy' Hc Heq.
    assert (Heq' : (getIndex (width img) x y + Z.of_nat j
                    = getIndex (width img) x' y' + c)%Z) by lia.
    apply getIndex_inj in Heq' as (? & ? & ?); lia. }
  unfold pixel. simpl.
  rewrite <- (Nat.add_0_r (Z.to_nat (getIndex (width img) x y))) at 1 5.
  rewrite !Hs by lia. done.
Qed.

(** Interior pixels: each colour sample is overwritten, once, with a value
    computed from the snapshot only. *)
Lemma applySharpen_interior img intensity x y c :
  wf_image img →
  (1 <= x < width img - 1)%Z → (1 <= y < height img - 1)%Z →
  (0 <= c < 3)%Z →
  data (applySharpen img intensity) !! Z.to_nat (getIndex (width img) x y + c)
  = Some (stored (data img) (width img) (weights intensity) (data img) x y c).
Proof.
  intros (Hw & Hh & Hlen & _) Hx Hy Hc. rewrite applySharpen_flat.
  apply steps_hit; [apply NoDup_positions | | by apply elem_of_positions | done |].
  - intros [x' y'] [? ?]%elem_of_positions. simpl. lia.
  - unfold getIndex. nia.
Qed.

Lemma wf_white_dot : wf_image white_dot.
Proof.
  unfold wf_image. simpl. split_and!; [lia | lia | done |].
  repeat (constructor; [lia |]). constructor.
Defined.

Lemma wf_test3x3 : wf_image test3x3.
Proof.
  unfold wf_image. simpl. split_and!; [lia | lia | done |].
  repeat (constructor; [lia |]). constructor.
Defined.

(** C7, as stated, fails: with intensity 0.25 the white pixel of
    [white_dot] has a contrasting neighbourhood and is interior, yet the
    pass stores 255 again in each of its colour samples (the sum
    saturates), so the pixel is unchanged. *)
Lemma sharpen_saturated_pixel_unchanged :
  ¬ (∀ (img : ImageData) (intensity : float),
       wf_image img → (2 < width img)%Z → (2 < height img)%Z →
       (0 <? intensity)%float = true →
       (∀ x y, (0 <= x < width img)%Z → (0 <= y < height img)%Z →
               (x = 0 ∨ x = width img - 1 ∨ y = 0 ∨ y = height img - 1)%Z →
               pixel (applySharpen img intensity) x y = pixel img x y) ∧
       (∀ x y, (1 <= x < width img - 1)%Z → (1 <= y < height img - 1)%Z →
               has_contrast img x y = true →
               pixel (applySharpen img intensity) x y ≠ pixel img x y)).
Proof.
  intros H.
  destruct (H white_dot 0.25%float wf_white_dot) as [_ Hint];
    [simpl; lia | simpl; lia | reflexivity |].
  apply (Hint 1%Z 1%Z); [simpl; lia | simpl; lia | | ]; by vm_compute.
Qed.

(** C7, amended: for a raster wider and higher than 2 and an intensity
    above 0, every pixel of the outermost one-pixel border keeps its four
    samples, and each colour sample of every interior pixel is replaced by
    the clamped, rounded value of [original + Σ weight·neighbour] computed
    from the snapshot taken before the pass (which may be the value it had). *)
Theorem applySharpen_border_kept_interior_stored
    (img : ImageData) (intensity : float) :
  wf_image img → (2 < width img)%Z → (2 < height img)%Z →
  (0 <? intensity)%float = true →
  (∀ x y, (0 <= x < width img)%Z → (0 <= y < height img)%Z →
          (x = 0 ∨ x = width img - 1 ∨ y = 0 ∨ y = height img - 1)%Z →
          pixel (applySharpen img intensity) x y = pixel img x y) ∧
  (∀ x y c, (1 <= x < width img - 1)%Z → (1 <= y < height img - 1)%Z →
            (0 <= c < 3)%Z →
            data (applySharpen img intensity)
              !! Z.to_nat (getIndex (width img) x y + c)
            = Some (JsNum.to_uint8_clamp
                      (clamp (U8.get (data img) (getIndex (width img) x y + c)
                              + accumulate (data img) (width img)
                                  (weights intensity) x y c)))).
Proof.
  intros Hwf _ _ _. split.
  - intros x y. apply applySharpen_border.
  - intros x y c Hx Hy Hc. by rewrite applySharpen_interior.
Qed.

Lemma applySharpen_border_kept_interior_stored_witness :
  (∀ x y, (0 <= x < 3)%Z → (0 <= y < 3)%Z →
          (x = 0 ∨ x = 3 - 1 ∨ y = 0 ∨ y = 3 - 1)%Z →
          pixel (applySharpen test3x3 0.25) x y = pixel test3x3 x y) ∧
  (∀ x y c, (1 <= x < 3 - 1)%Z → (1 <= y < 3 - 1)%Z → (0 <= c < 3)%Z →
            data (applySharpen test3x3 0.25) !! Z.to_nat (getIndex 3 x y + c)
            = Some (JsNum.to_uint8_clamp
                      (clamp (U8.get (data test3x3) (getIndex 3 x y + c)
                              + accumulate (data test3x3) 3
                                  (weights 0.25) x y c)))).
Proof.
  apply (applySharpen_border_kept_interior_stored test3x3 0.25%float wf_test3x3);
    [simpl; lia | simpl; lia | reflexivity].
Defined.

(** What the pass makes of [test3x3]: only the centre's colour samples
    move, to [clamp(100 + 180)], [50 + 80] and [7 - 6]. *)
Example applySharpen_test3x3 :
  data (applySharpen test3x3 0.25)
  = [ 10;10;10;255;  20;20;20;255;  10;10;10;255;
      20;20;20;255;  255;130;1;200;  20;20;20;255;
      10;10;10;255;  20;20;20;255;  10;10;10;255 ]%Z.
Proof. by vm_compute. Qed.

(** ** [enhanceOne] *)

(** C8: when the sharpen intensity is 0 the convolution is not run:
    whenever [enhanceOne] returns, the buffer it put on the canvas is the
    resampled (upscaled, colour-adjusted) buffer itself, and it does return
    as soon as the bitmap decodes, the context exists and the canvas
    encodes. *)
Theorem enhanceOne_sharpen_zero_is_resampled
    (B : Browser) (file : File) (opts : ProcessingOptions) :
  sharpen opts = 0%float →
  (∀ r, enhanceOne B file opts = Ok r →
        ∃ bm, createImageBitmap B file = Some bm ∧
              canvas r = resampled B bm opts) ∧
  (∀ bm bytes, createImageBitmap B file = Some bm → getContext2d B = true →
               toBlob B (resampled B bm opts) = Some bytes →
               ∃ r, enhanceOne B file opts = Ok r ∧
                    canvas r = resampled B bm opts).
Proof.
  intros Hs. unfold enhanceOne, canvasToBlob. rewrite Hs.
  change (0 <? 0)%float with false. cbn iota. split.
  - intros r Hr. destruct (createImageBitmap B file) as [bm |]; [| done].
    exists bm. split; [done |]. simpl in Hr.
    destruct (getContext2d B); [| done]. simpl in Hr.
    destruct (toBlob B (resampled B bm opts)); [| done].
    simpl in Hr. by inversion Hr.
  - intros bm bytes -> -> Hb. simpl. rewrite Hb. simpl. eauto.
Qed.

Lemma enhanceOne_sharpen_zero_is_resampled_witness :
  ∃ r, enhanceOne stub_browser (mkFile (Js.str "a.png") [7%Z])
         (mkOptions 2 1 1 0) = Ok r ∧
       canvas r = resampled stub_browser (mkBitmap 1 1 [7; 7; 7; 255]%Z)
                    (mkOptions 2 1 1 0).
Proof.
  apply (proj2 (enhanceOne_sharpen_zero_is_resampled stub_browser
                  (mkFile (Js.str "a.png") [7%Z]) (mkOptions 2 1 1 0)
                  eq_refl)
           (mkBitmap 1 1 [7; 7; 7; 255]%Z)
           (data (resampled stub_browser (mkBitmap 1 1 [7; 7; 7; 255]%Z)
                    (mkOptions 2 1 1 0))));
    reflexivity.
Defined.

(** The guard of [enhanceOne] is what keeps the buffer intact: called
    with intensity 0 the pass itself still adds the centre sample (weight
    [1 + 4 * 0]) onto each interior colour sample. *)
Example applySharpen_zero_intensity :
  data (applySharpen test3x3 0)
  = [ 10;10;10;255;  20;20;20;255;  10;10;10;255;
      20;20;20;255;  200;100;14;200;  20;20;20;255;
      10;10;10;255;  20;20;20;255;  10;10;10;255 ]%Z.
Proof. by vm_compute. Qed.

(** C5, as stated, fails: the enhancement with brightness 5 is not the
    enhancement with the brightness clamped to 2; on [probe_browser] the
    first yields samples of 255 where the second yields 200. *)
Lemma enhanceOne_does_not_clamp :
  ¬ (∀ (B : Browser) (file : File) (opts : ProcessingOptions),
       enhanceOne B file opts = enhanceOne B file (spec_clamped opts)).
Proof.
  intros H.
  specialize (H probe_browser (mkFile [] []) (mkOptions 1 5 1 0)).
  vm_compute in H. discriminate H.
Qed.

(** C5, amended: [enhanceOne] uses the options as given.  Whatever their
    values, brightness and saturation reach the colour transform unchanged,
    the sharpen value reaches the convolution unchanged when it is above 0
    (and the convolution is skipped otherwise), and nothing is rejected:
    the call succeeds whenever the bitmap decodes, the context exists and
    the canvas encodes. *)
Theorem enhanceOne_uses_options_as_given
    (B : Browser) (file : File) (opts : ProcessingOptions)
    (bm : ImageBitmap) (bytes : list Z) :
  let cw := Z.pos (bm_width bm * scale opts) in
  let ch := Z.pos (bm_height bm * scale opts) in
  let imageData :=
    mkImageData cw ch
      (drawImage B (mkFilter (brightness opts) (saturation opts)) bm cw ch) in
  let final :=
    if (0 <? sharpen opts)%float
    then applySharpen imageData (sharpen opts) else imageData in
  createImageBitmap B file = Some bm →
  getContext2d B = true →
  toBlob B final = Some bytes →
  ∃ r, enhanceOne B file opts = Ok r ∧ canvas r = final.
Proof.
  intros cw ch imageData final Hbm Hctx Hblob.
  unfold enhanceOne, canvasToBlob. rewrite Hbm, Hctx. simpl.
  fold cw ch. change (resampled B bm opts) with imageData.
  fold final. rewrite Hblob. simpl. eauto.
Qed.

Lemma enhanceOne_uses_options_as_given_witness :
  ∃ r, enhanceOne probe_browser (mkFile [] []) (mkOptions 1 5 1 3) = Ok r ∧
       canvas r = applySharpen (mkImageData 1 1 [255; 255; 255; 255]%Z) 3.
Proof.
  apply (enhanceOne_uses_options_as_given probe_browser (mkFile [] [])
           (mkOptions 1 5 1 3) (mkBitmap 1 1 [100; 100; 100; 255]%Z)
           [255; 255; 255; 255]%Z); reflexivity.
Defined.

(** ** [brandingText] *)

(** [strip_spaces] keeps exactly the characters that are not whitespace. *)
Lemma strip_spaces_filter (s : jsstring) :
  Js.strip_spaces s = filter (fun c => Js.is_space c = false) s.
Proof.
  induction s as [| c s IH]; [done |].
  simpl. rewrite filter_cons. destruct (Js.is_space c) eqn:E.
  - rewrite decide_False by done. exact IH.
  - rewrite decide_True by done. by rewrite IH.
Qed.

(** C4, as stated, fails: the brand [A-B] is rendered as [#A-B]; the
    hyphen, which is neither a letter nor a digit, is kept. *)
Lemma brandingText_keeps_punctuation :
  ¬ (∀ brand : jsstring, brand ≠ [] → brandingText brand = spec_hashtag brand).
Proof.
  intros H. specialize (H (Js.str "A-B")).
  vm_compute in H. discriminate H. discriminate.
Qed.

(** C4, amended: for a non-empty brand the tag is [#] followed by the brand
    with its whitespace characters removed (every other character, letters
    and digits or not, is kept), and the frame ends with that tag drawn at
    [(100, height - 80)]; for the empty brand the tag is empty and the frame
    draws none. *)
Theorem brandingText_strips_whitespace_only
    (M : MathLib) (image : HTMLImage) (w h progress : float)
    (accent : option string) (lines : list jsstring) (brand : jsstring) :
  brandingText brand
  = match brand with
    | [] => []
    | _ :: _ => Js.hash :: filter (fun c => Js.is_space c = false) brand
    end
  ∧ drawVideoFrame M image w h progress accent lines (brandingText brand)
    = drawVideoFrame M image w h progress accent lines []
      ++ match brand with
         | [] => []
         | _ :: _ =>
             [ FillText "#111" "bold 36px 'Inter', sans-serif"
                 (Js.hash :: filter (fun c => Js.is_space c = false) brand)
                 100 (h - 80)%float ]
         end.
Proof.
  destruct brand as [| c brand].
  - split; [done |]. simpl. by rewrite app_nil_r.
  - unfold brandingText. cbn [Js.truthy]. rewrite strip_spaces_filter.
    split; [done |]. unfold drawVideoFrame.
    destruct (_ <? _)%float; cbn [Js.truthy];
      rewrite app_nil_r, <- !app_assoc; done.
Qed.

Example brandingText_atelier :
  brandingText (Js.str "Atelier Soleil") = Js.str "#AtelierSoleil".
Proof. reflexivity. Qed.

(** ** [wrapText] *)

Lemma split_nonempty (s : jsstring) : Js.split s ≠ [].
Proof.
  induction s as [| c s IH]; [done |].
  simpl. destruct (c =? Js.space)%N; [done |].
  by destruct (Js.split s).
Qed.

(** Splitting distributes over a separator. *)
Lemma split_app_space (a b : jsstring) :
  Js.split (a ++ Js.space :: b) = Js.split a ++ Js.split b.
Proof.
  induction a as [| c a IH]; [done |].
  simpl. destruct (c =? Js.space)%N; [by rewrite IH |].
  rewrite IH. pose proof (split_nonempty a) as Hne.
  by destruct (Js.split a).
Qed.

(** A word of the split holds no space, hence is its own split. *)
Lemma split_no_space (s w : jsstring) : w ∈ Js.split s → Js.space ∉ w.
Proof.
  revert w. induction s as [| c s IH]; intros w Hw; simpl in Hw.
  - apply list_elem_of_singleton in Hw as ->. apply not_elem_of_nil.
  - destruct (c =? Js.space)%N eqn:E.
    + apply elem_of_cons in Hw as [-> | Hw]; [apply not_elem_of_nil | by apply IH].
    + pose proof (split_nonempty s) as Hne.
      destruct (Js.split s) as [| w0 ws]; [done |].
      apply elem_of_cons in Hw as [-> | Hw].
      * intros [Hc | Hin]%elem_of_cons.
        -- subst c. by rewrite N.eqb_refl in E.
        -- revert Hin. apply IH. by left.
      * apply IH. by right.
Qed.

Lemma split_word (w : jsstring) : Js.space ∉ w → Js.split w = [w].
Proof.
  induction w as [| c w IH]; intros Hw; [done |].
  simpl. destruct (c =? Js.space)%N eqn:E.
  - apply N.eqb_eq in E as ->. exfalso. apply Hw. by left.
  - rewrite IH; [done |]. intros Hin. apply Hw. by right.
Qed.

Lemma filter_empty_word :
  filter (.≠ []) [([] : jsstring)] = [].
Proof. rewrite filter_cons, decide_False by (by intros H; apply H). done. Qed.

Section Wrap.
Variables (fontSize maxWidth : float) (words : list jsstring).

Lemma wrap_inv_init : wrap_inv fontSize maxWidth words [] ([], []).
Proof. split_and!; [by intros l ?%elem_of_nil | done | done]. Qed.

Lemma wrap_inv_step seen st word :
  wrap_inv fontSize maxWidth words seen st →
  word ∈ words → Js.space ∉ word →
  wrap_inv fontSize maxWidth words (seen ++ [word])
    (wrap_step fontSize maxWidth st word).
Proof.
  destruct st as [lines cur]. intros (Hl & Hc & Hw) Hin Hsp.
  simpl in Hl, Hc, Hw. unfold wrap_inv, wrap_step.
  rewrite (filter_app _ seen), <- Hw. clear Hw.
  destruct cur as [| c cur]; cbn [Js.truthy].
  - (* the current line is empty: the word starts it in both branches *)
    destruct (too_wide word fontSize maxWidth) eqn:E; cbn [fst snd];
      (split_and!; [done | by intros | ]);
      cbn [Js.split]; rewrite !filter_app, filter_empty_word, app_nil_r;
      rewrite (split_word word Hsp); done.
  - destruct (too_wide ((c :: cur) ++ Js.space :: word) fontSize maxWidth) eqn:E;
      cbn [fst snd].
    + (* the current line is pushed and the word starts the next one *)
      split_and!.
      * intros l [Hl' | ->%list_elem_of_singleton]%elem_of_app; [by apply Hl |].
        by apply Hc.
      * by intros.
      * rewrite bind_app, (split_word word Hsp). cbn [mbind list_bind].
        rewrite app_nil_r. by rewrite !filter_app.
    + (* the word joins the current line, which still fits *)
      split_and!; [done | intros _ Hwide; congruence |].
      rewrite split_app_space, (split_word word Hsp).
      by rewrite !filter_app, app_assoc.
Qed.

Lemma wrap_inv_fold ws seen st :
  wrap_inv fontSize maxWidth words seen st →
  (∀ w, w ∈ ws → w ∈ words ∧ Js.space ∉ w) →
  wrap_inv fontSize maxWidth words (seen ++ ws)
    (foldl (wrap_step fontSize maxWidth) st ws).
Proof.
  revert seen st. induction ws as [| w ws IH]; intros seen st Hinv Hws.
  - by rewrite app_nil_r.
  - simpl. rewrite (cons_middle w seen ws), app_assoc. apply IH.
    + destruct (Hws w) as [? ?]; [by left |]. by apply wrap_inv_step.
    + intros w' Hw'. apply Hws. by right.
Qed.
End Wrap.

(** C9: for every text, font size and maximum width, a line of the result
    whose estimated width [length * (fontSize * 0.55)] exceeds the maximum
    width is a single word of the text, and no word is broken: split at
    spaces again, the lines give back exactly the non-empty words of the
    text, in order. *)
Theorem wrapText_fits_or_single_word
    (text : jsstring) (fontSize maxWidth : float) :
  (∀ line, line ∈ wrapText text fontSize maxWidth →
           too_wide line fontSize maxWidth = true →
           line ∈ Js.split text ∧ Js.space ∉ line) ∧
  filter (.≠ []) (wrapText text fontSize maxWidth ≫= Js.split)
  = filter (.≠ []) (Js.split text).
Proof.
  unfold wrapText.
  pose proof (wrap_inv_fold fontSize maxWidth (Js.split text) (Js.split text)
                [] ([], []) (wrap_inv_init _ _ _)) as Hinv.
  destruct (foldl _ _ _) as [lines cur].
  destruct Hinv as (Hl & Hc & Hw).
  { intros w Hw. split; [done | by eapply split_no_space]. }
  simpl in Hl, Hc, Hw. destruct cur as [| c cur]; cbn [Js.truthy].
  - split.
    + intros line Hin Hwide. split; [by apply Hl |].
      eapply split_no_space. by apply Hl.
    + rewrite <- Hw, filter_app. simpl. by rewrite app_nil_r.
  - split.
    + intros line [Hin | ->%list_elem_of_singleton]%elem_of_app Hwide.
      * split; [by apply Hl |]. eapply split_no_space. by apply Hl.
      * split; [by apply Hc |]. eapply split_no_space. by apply Hc.
    + rewrite <- Hw, bind_app. simpl. by rewrite app_nil_r.
Qed.

Lemma wrapText_fits_or_single_word_witness :
  Js.str "abcdefgh" ∈ wrapText (Js.str "hi abcdefgh yo") 10 22 ∧
  too_wide (Js.str "abcdefgh") 10 22 = true ∧
  Js.str "abcdefgh" ∈ Js.split (Js.str "hi abcdefgh yo") ∧
  Js.space ∉ Js.str "abcdefgh".
Proof.
  assert (Hin : Js.str "abcdefgh" ∈ wrapText (Js.str "hi abcdefgh yo") 10 22).
  { apply list_elem_of_In. vm_compute. right. left. reflexivity. }
  split; [exact Hin |]. split; [reflexivity |].
  exact (proj1 (wrapText_fits_or_single_word (Js.str "hi abcdefgh yo") 10 22)
           (Js.str "abcdefgh") Hin eq_refl).
Defined.

Example wrapText_three_lines :
  wrapText (Js.str "hi abcdefgh yo") 10 22
  = [Js.str "hi"; Js.str "abcdefgh"; Js.str "yo"].
Proof. by vm_compute. Qed.

(** ** The frame loop *)

Lemma totalFrames_360 : totalFrames = 360%Z.
Proof. by vm_compute. Qed.

Lemma animate_continue job total st :
  (frame st + 1 <= total)%Z →
  animate job total st
  = mkLoop (frame st + 1) (presented st ++ [frame_call job total (frame st)])
      true (stopped st).
Proof.
  intros H. unfold animate.
  destruct (frame st + 1 <=? total)%Z eqn:E; [done | lia].
Qed.

Lemma animate_stop job total st :
  (total < frame st + 1)%Z →
  animate job total st
  = mkLoop (frame st + 1) (presented st ++ [frame_call job total (frame st)])
      false true.
Proof.
  intros H. unfold animate.
  destruct (frame st + 1 <=? total)%Z eqn:E; [lia | done].
Qed.

Lemma run_ticks_idle job total n st :
  pending st = false → run_ticks job total n st = st.
Proof. intros H. destruct n; simpl; [done | by rewrite H]. Qed.

(** With the counter at [f <= total] and a callback pending, the remaining
    ticks present the frames [f .. total] (the last one included) and stop
    the recorder. *)
Lemma run_ticks_pending job total (r : nat) :
  ∀ (f : Z) pres stp (m : nat),
    Z.of_nat r = (total - f)%Z → (r < m)%nat →
    run_ticks job total m (mkLoop f pres true stp)
    = mkLoop (total + 1)
        (pres ++ (frame_call job total <$> seqZ f (total - f + 1))) false true.
Proof.
  induction r as [| r IH]; intros f pres stp m Hr Hm;
    (destruct m as [| m]; [lia |]); simpl.
  - rewrite animate_stop by (simpl; lia). simpl.
    rewrite run_ticks_idle by done.
    replace (total - f + 1)%Z with 1%Z by lia.
    replace f with total by lia. done.
  - rewrite animate_continue by (simpl; lia). simpl.
    rewrite (IH (f + 1)%Z) by lia.
    rewrite (seqZ_cons f) by lia.
    replace (Z.pred (total - f + 1)) with (total - (f + 1) + 1)%Z by lia.
    replace (Z.succ f) with (f + 1)%Z by lia.
    by rewrite fmap_cons, <- app_assoc.
Qed.

Lemma frame_loop_spec job total (extra : nat) :
  (0 <= total)%Z →
  frame_loop job total (Z.to_nat total + extra)
  = mkLoop (total + 1) (frame_call job total <$> seqZ 0 (total + 1)) false true.
Proof.
  intros Ht. unfold frame_loop.
  destruct (decide (total = 0%Z)) as [-> | Hne].
  - rewrite animate_stop by (simpl; lia). by rewrite run_ticks_idle.
  - rewrite animate_continue by (simpl; lia). simpl.
    rewrite (run_ticks_pending job total (Z.to_nat (total - 1))) by lia.
    rewrite (seqZ_cons 0 (total + 1)) by lia.
    replace (Z.pred (total + 1)) with (total - (0 + 1) + 1)%Z by lia.
    done.
Qed.

(** C1, evaluated on the code: whatever the image, caption, style and
    brand, the frame loop of a video job has [totalFrames = 360] and, once
    the scheduler has run at least 360 ticks, has stopped the recorder
    after presenting 361 frames, one for each counter value 0..360: one
    more than [totalFrames]. *)
Theorem frame_loop_presents_361_frames
    (M : MathLib) (image : HTMLImage) (vibe : string) (brand script : jsstring)
    (extra : nat) :
  let st := frame_loop (video_job M image vibe brand script) totalFrames
              (360 + extra) in
  totalFrames = 360%Z ∧ stopped st = true ∧ pending st = false ∧
  frame st = 361%Z ∧ length (presented st) = 361%nat.
Proof.
  rewrite totalFrames_360.
  rewrite (frame_loop_spec _ 360 extra) by lia. cbn [stopped pending frame presented].
  split_and!; [done .. |]. by rewrite length_fmap, length_seqZ.
Qed.

(** C6, evaluated on the code: the frames presented are those of
    [drawVideoFrame] at the fractions [k / 360] for [k = 0 .. 360], each
    computed from its own counter value only; the first 360 fractions lie
    in [0, 1), but the last call passes [360 / 360 = 1], which does not. *)
Theorem frame_loop_last_progress_is_one
    (M : MathLib) (image : HTMLImage) (vibe : string) (brand script : jsstring)
    (extra : nat) :
  let job := video_job M image vibe brand script in
  let st := frame_loop job totalFrames (360 + extra) in
  presented st = frame_call job 360 <$> seqZ 0 361 ∧
  forallb in_unit_interval (take 360 (fst <$> presented st)) = true ∧
  fst <$> last (presented st) = Some 1%float ∧
  in_unit_interval 1 = false.
Proof.
  intros job st. subst st. rewrite totalFrames_360.
  rewrite (frame_loop_spec _ 360 extra) by lia.
  change (360 + 1)%Z with 361%Z. cbn [presented].
  split; [done |].
  rewrite <- list_fmap_compose.
  rewrite (list_fmap_ext (fst ∘ frame_call job 360)
             (fun k => (JsNum.of_Z k / JsNum.of_Z 360)%float) (seqZ 0 361))
    by done.
  split; [by vm_compute |]. split; [| done].
  rewrite fmap_last.
  replace (last (seqZ 0 361)) with (Some 360%Z) by (by vm_compute).
  reflexivity.
Qed.

(** ** [transcodeToMp4] *)

(** When [exec] throws, the call throws the same error right there, with
    the files [exec] left behind. *)
Lemma transcode_exec_throws core webm e m' :
  Ffmpeg.load core = Ok tt →
  Ffmpeg.exec core exec_args (<["input.webm" := blob_bytes webm]> ∅)
  = (Err e, m') →
  transcodeToMp4 core webm = (Err e, m').
Proof.
  intros Hload Hexec.
  unfold transcodeToMp4, transcode_body, Ffmpeg.bind, Ffmpeg.writeFile.
  by rewrite Hload, Hexec.
Qed.

(** When [exec] returns without having produced the output file,
    [readFile] throws, again before any file is deleted. *)
Lemma transcode_no_output core webm code m' :
  Ffmpeg.load core = Ok tt →
  Ffmpeg.exec core exec_args (<["input.webm" := blob_bytes webm]> ∅)
  = (Ok code, m') →
  m' !! "output.mp4" = None →
  transcodeToMp4 core webm = (Err "ErrnoError: FS error", m').
Proof.
  intros Hload Hexec Hout.
  unfold transcodeToMp4, transcode_body, Ffmpeg.bind, Ffmpeg.writeFile,
    Ffmpeg.readFile.
  by rewrite Hload, Hexec, Hout.
Qed.

(** C2, evaluated on the code: for every input blob, when the encoder
    returns without an output file the call throws from [readFile] and the
    instance still holds [input.webm]; the same when the encoder throws;
    only when the whole sequence succeeds are both files deleted. *)
Theorem transcodeToMp4_leaves_input_on_failure (webm : Blob) :
  (transcodeToMp4 rejecting_core webm).1 = Err "ErrnoError: FS error" ∧
  (transcodeToMp4 rejecting_core webm).2 !! "input.webm"
  = Some (blob_bytes webm) ∧
  (transcodeToMp4 throwing_core webm).1 = Err "aborted" ∧
  (transcodeToMp4 throwing_core webm).2 !! "input.webm"
  = Some (blob_bytes webm) ∧
  (transcodeToMp4 working_core webm).1 = Ok (mkBlob [0; 0; 0; 32]%Z "video/mp4") ∧
  (transcodeToMp4 working_core webm).2 !! "input.webm" = None ∧
  (transcodeToMp4 working_core webm).2 !! "output.mp4" = None.
Proof.
  rewrite (transcode_no_output rejecting_core webm 1
             (<["input.webm" := blob_bytes webm]> ∅)) by done.
  rewrite (transcode_exec_throws throwing_core webm "aborted"
             (<["input.webm" := blob_bytes webm]> ∅)) by done.
  split_and!; [done | by simplify_map_eq | done | by simplify_map_eq | ..].
  all: unfold transcodeToMp4, transcode_body, Ffmpeg.bind, Ffmpeg.writeFile,
         Ffmpeg.readFile, Ffmpeg.deleteFile, Ffmpeg.ret; simpl;
       by simplify_map_eq.
Qed.

(** ** [processFiles] *)

Lemma process_loop_ok env files items :
  Forall2 (fun f it => process_one env f = Ok it) files items →
  ∀ acc, process_loop env files acc = Ok (acc ++ items).
Proof.
  induction 1 as [| f it files items Hf _ IH]; intros acc; simpl.
  - by rewrite app_nil_r.
  - rewrite Hf, IH. by rewrite <- app_assoc.
Qed.

Lemma process_loop_err env done f rest e :
  Forall (fun g => ∃ it, process_one env g = Ok it) done →
  process_one env f = Err e →
  ∀ acc, process_loop env (done ++ f :: rest) acc = Err e.
Proof.
  intros Hdone Hf. induction Hdone as [| g done [it Hg] _ IH]; intros acc; simpl.
  - by rewrite Hf.
  - rewrite Hg. apply IH.
Qed.

(** C3, as stated, fails: in the batch [a.png; b.png; c.png] where
    [b.png] cannot be decoded, [a.png] enhances fine on its own, yet its
    result is not in the gallery after the batch (nor is that of
    [c.png]): the gallery is left as it was. *)
Lemma processFiles_drops_batch_on_failure :
  ¬ (∀ (env : PageEnv) (files : list File) (st : PageState)
       (f : File) (item : EnhancedImage),
       f ∈ files → process_one env f = Ok item →
       item ∈ enhanced (processFiles env files st)).
Proof.
  intros H.
  assert (∃ item, process_one stub_env (mkFile (Js.str "a.png") [7%Z]) = Ok item)
    as [item Hitem] by (eexists; by vm_compute).
  specialize (H stub_env
                [ mkFile (Js.str "a.png") [7%Z]; mkFile (Js.str "b.png") [];
                  mkFile (Js.str "c.png") [9%Z] ]
                (mkState [] false []) _ item (list_elem_of_here _ _) Hitem).
  replace (processFiles _ _ _) with (mkState [] false ["InvalidStateError"])
    in H by (by vm_compute).
  by apply elem_of_nil in H.
Qed.

(** C3, amended: a non-empty batch is all or nothing.  When every image is
    enhanced and described, the results are put in front of the gallery,
    in batch order; when one image fails, the images after it are not
    processed, none of the batch's results is delivered, and the error goes
    to the console.  Either way the processing flag is reset. *)
Theorem processFiles_all_or_nothing
    (env : PageEnv) (files : list File) (st : PageState) :
  files ≠ [] →
  (∀ items, Forall2 (fun f it => process_one env f = Ok it) files items →
            processFiles env files st
            = mkState (items ++ enhanced st) false (console st)) ∧
  (∀ done f rest e,
     files = done ++ f :: rest →
     Forall (fun g => ∃ it, process_one env g = Ok it) done →
     process_one env f = Err e →
     processFiles env files st
     = mkState (enhanced st) false (console st ++ [e])).
Proof.
  intros Hne. split.
  - intros items Hall. unfold processFiles.
    rewrite (process_loop_ok env files items Hall). by destruct files.
  - intros done f rest e -> Hdone Hf. unfold processFiles.
    rewrite (process_loop_err env done f rest e Hdone Hf).
    by destruct done.
Qed.

Lemma processFiles_all_or_nothing_witness :
  processFiles stub_env
    [ mkFile (Js.str "a.png") [7%Z]; mkFile (Js.str "b.png") [];
      mkFile (Js.str "c.png") [9%Z] ]
    (mkState [] false [])
  = mkState [] false ["InvalidStateError"].
Proof.
  refine (proj2 (processFiles_all_or_nothing stub_env
                   [ mkFile (Js.str "a.png") [7%Z]; mkFile (Js.str "b.png") [];
                     mkFile (Js.str "c.png") [9%Z] ]
                   (mkState [] false []) _)
            [mkFile (Js.str "a.png") [7%Z]] (mkFile (Js.str "b.png") [])
            [mkFile (Js.str "c.png") [9%Z]] "InvalidStateError" eq_refl _ eq_refl).
  - discriminate.
  - constructor; [| constructor]. eexists. vm_compute. reflexivity.
Defined.

(** * Further properties of the code *)

(** ** Typed-array stores produce bytes *)








(** X2: an image with fewer than three columns or fewer than three rows
    has no interior pixel; the pass returns it unchanged. *)
Theorem applySharpen_thin_image (img : ImageData) (intensity : float) :
  (width img <= 2)%Z ∨ (height img <= 2)%Z →
  applySharpen img intensity = img.
Proof.
  intros Hthin.
  assert (Hd : data (applySharpen img intensity) = data img).
  { rewrite applySharpen_flat.
    replace (positions (width img) (height img)) with (@nil (Z * Z)); [done |].
    symmetry. apply elem_of_nil_inv. intros [x y] Hin%elem_of_positions. lia. }
  destruct img as [w h d]. unfold applySharpen in *. simpl in *. by rewrite Hd.
Qed.

Lemma applySharpen_thin_image_witness : applySharpen thin2x2 0.25 = thin2x2.
Proof. apply applySharpen_thin_image. left. simpl. lia. Defined.

(** ** The sharpen pass is local *)

Lemma foldl_ext_in {A B} (f g : A → B → A) (l : list B) (a : A) :
  (∀ a b, b ∈ l → f a b = g a b) → foldl f a l = foldl g a l.
Proof.
  revert a. induction l as [| b l IH]; intros a H; [done |].
  simpl. rewrite H by left. apply IH. intros a' b' Hb'. apply H. by right.
Qed.

Lemma accumulate_ext copy1 copy2 w ws x y ch :
  (∀ kx ky, (kx, ky) ∈ kernel_offsets →
            U8.get copy1 (getIndex w (x + kx) (y + ky) + ch)
            = U8.get copy2 (getIndex w (x + kx) (y + ky) + ch)) →
  accumulate copy1 w ws x y ch = accumulate copy2 w ws x y ch.
Proof.
  intros H. unfold accumulate. apply foldl_ext_in.
  intros acc [[kx ky] weight] Hin.
  apply elem_of_zip_l in Hin. by rewrite (H kx ky Hin).
Qed.

Lemma pixel_get img1 img2 x y c :
  width img1 = width img2 →
  (0 <= getIndex (width img1) x y)%Z → (0 <= c < 4)%Z →
  pixel img1 x y = pixel img2 x y →
  U8.get (data img1) (getIndex (width img1) x y + c)
  = U8.get (data img2) (getIndex (width img1) x y + c).
Proof.
  intros Hw H0 Hc Hp. unfold pixel in Hp. rewrite <- Hw in Hp.
  set (i := getIndex (width img1) x y) in *.
  inversion Hp as [[H1 H2 H3 H4]].
  apply U8_get_ext.
  assert (c = 0 ∨ c = 1 ∨ c = 2 ∨ c = 3)%Z as [-> | [-> | [-> | ->]]] by lia.
  - by rewrite Z.add_0_r.
  - by replace (Z.to_nat (i + 1)) with (Z.to_nat i + 1)%nat by lia.
  - by replace (Z.to_nat (i + 2)) with (Z.to_nat i + 2)%nat by lia.
  - by replace (Z.to_nat (i + 3)) with (Z.to_nat i + 3)%nat by lia.
Qed.

(** X3: the new value of an interior pixel depends on the 3×3 window
    around it only: two well-formed images of the same width that agree on
    that window get the same pixel there, whatever they hold elsewhere. *)
Theorem applySharpen_local
    (img1 img2 : ImageData) (intensity : float) (x y : Z) :
  wf_image img1 → wf_image img2 → width img1 = width img2 →
  (1 <= x < width img1 - 1)%Z →
  (1 <= y < height img1 - 1)%Z → (1 <= y < height img2 - 1)%Z →
  (∀ kx ky, (kx, ky) ∈ kernel_offsets →
            pixel img1 (x + kx) (y + ky) = pixel img2 (x + kx) (y + ky)) →
  pixel (applySharpen img1 intensity) x y
  = pixel (applySharpen img2 intensity) x y.
Proof.
  intros Hwf1 Hwf2 Hw Hx Hy1 Hy2 Hwin.
  assert (Hoff : ∀ kx ky, (kx, ky) ∈ kernel_offsets →
            (-1 <= kx <= 1)%Z ∧ (-1 <= ky <= 1)%Z).
  { intros kx ky Hin. apply list_elem_of_In in Hin. vm_compute in Hin.
    repeat (destruct Hin as [Hin | Hin]; [inversion Hin; lia |]). done. }
  assert (Hcenter : pixel img1 x y = pixel img2 x y).
  { replace x with (x + 0)%Z by lia. replace y with (y + 0)%Z by lia.
    apply Hwin. apply list_elem_of_In. vm_compute. tauto. }
  assert (Hsame : ∀ c, (0 <= c < 3)%Z →
            stored (data img1) (width img1) (weights intensity) (data img1) x y c
            = stored (data img2) (width img1) (weights intensity) (data img2) x y c).
  { intros c Hc. unfold stored.
    rewrite (accumulate_ext (data img1) (data img2)).
    - by rewrite (pixel_get img1 img2 x y c Hw)
        by (done || lia || (unfold getIndex; nia)).
    - intros kx ky Hin. destruct (Hoff kx ky Hin).
      apply (pixel_get img1 img2 (x + kx) (y + ky) c Hw);
        [unfold getIndex; nia | lia | by apply Hwin]. }
  assert (H0 : (0 <= getIndex (width img1) x y)%Z) by (unfold getIndex; nia).
  unfold pixel.
  change (width (applySharpen img1 intensity)) with (width img1).
  change (width (applySharpen img2 intensity)) with (width img2).
  rewrite <- Hw.
  set (i := getIndex (width img1) x y) in *.
  pose proof (applySharpen_interior img1 intensity x y 0 Hwf1 Hx Hy1) as A0.
  pose proof (applySharpen_interior img1 intensity x y 1 Hwf1 Hx Hy1) as A1.
  pose proof (applySharpen_interior img1 intensity x y 2 Hwf1 Hx Hy1) as A2.
  pose proof (applySharpen_interior img2 intensity x y 0 Hwf2) as B0.
  pose proof (applySharpen_interior img2 intensity x y 1 Hwf2) as B1.
  pose proof (applySharpen_interior img2 intensity x y 2 Hwf2) as B2.
  rewrite <- Hw in B0, B1, B2. fold i in A0, A1, A2, B0, B1, B2.
  rewrite Z.add_0_r in A0, B0.
  replace (Z.to_nat (i + 1)) with (Z.to_nat i + 1)%nat in A1, B1 by lia.
  replace (Z.to_nat (i + 2)) with (Z.to_nat i + 2)%nat in A2, B2 by lia.
  rewrite A0, A1, A2, B0, B1, B2 by lia.
  rewrite !Hsame by lia.
  do 3 f_equal.
  assert (Hal : ∀ img, width img = width img1 →
            (1 <= x < width img - 1)%Z →
            data (applySharpen img intensity) !! (Z.to_nat i + 3)%nat
            = data img !! (Z.to_nat i + 3)%nat).
  { intros img Hwi Hxi. apply applySharpen_frame.
    intros x' y' c Hx' Hy' Hc Heq. rewrite Hwi in *.
    unfold i, getIndex in Heq. lia. }
  rewrite (Hal img1), (Hal img2) by (done || lia).
  unfold pixel in Hcenter. rewrite <- Hw in Hcenter. fold i in Hcenter.
  by inversion Hcenter.
Qed.

Lemma wf_test3x3_far : wf_image test3x3_far.
Proof.
  unfold wf_image. simpl. split_and!; [lia | lia | done |].
  repeat (constructor; [lia |]). constructor.
Defined.

Lemma applySharpen_local_witness :
  pixel (applySharpen test3x3 0.25) 1 1
  = pixel (applySharpen test3x3_far 0.25) 1 1.
Proof.
  apply (applySharpen_local test3x3 test3x3_far 0.25%float 1 1
           wf_test3x3 wf_test3x3_far eq_refl);
    [simpl; lia | simpl; lia | simpl; lia |].
  intros kx ky Hin. apply list_elem_of_In in Hin. vm_compute in Hin.
  repeat (destruct Hin as [Hin | Hin]; [inversion Hin; reflexivity |]).
  destruct Hin.
Defined.

(** ** More on [enhanceOne] *)

Lemma enhanceOne_ok_inv
    (B : Browser) (file : File) (opts : ProcessingOptions) (r : EnhanceResult) :
  enhanceOne B file opts = Ok r →
  ∃ bm, createImageBitmap B file = Some bm ∧
        width (canvas r) = Z.pos (bm_width bm * scale opts) ∧
        height (canvas r) = Z.pos (bm_height bm * scale opts) ∧
        length (data (canvas r)) = length (data (resampled B bm opts)).
Proof.
  unfold enhanceOne, canvasToBlob. intros Hr.
  destruct (createImageBitmap B file) as [bm |]; [| done].
  exists bm. split; [done |]. simpl in Hr.
  destruct (getContext2d B); [| done]. simpl in Hr.
  destruct (toBlob B _); [| done]. simpl in Hr.
  inversion Hr; subst r; clear Hr. simpl.
  destruct (0 <? sharpen opts)%float; [| done].
  by rewrite applySharpen_length.
Qed.

(** X4: whenever [enhanceOne] returns, the canvas it returns has the
    bitmap's width and height multiplied by the scale factor and holds as
    many samples as the resampled buffer, whether the sharpen pass ran or
    not. *)
Theorem enhanceOne_dimensions
    (B : Browser) (file : File) (opts : ProcessingOptions) (r : EnhanceResult) :
  enhanceOne B file opts = Ok r →
  ∃ bm, createImageBitmap B file = Some bm ∧
        width (canvas r) = Z.pos (bm_width bm * scale opts) ∧
        height (canvas r) = Z.pos (bm_height bm * scale opts) ∧
        length (data (canvas r)) = length (data (resampled B bm opts)).
Proof.
  unfold enhanceOne, canvasToBlob. intros Hr.
  destruct (createImageBitmap B file) as [bm |]; [| done].
  exists bm. split; [done |]. simpl in Hr.
  destruct (getContext2d B); [| done]. simpl in Hr.
  destruct (toBlob B _); [| done]. simpl in Hr.
  inversion Hr; subst r; clear Hr. simpl.
  destruct (0 <? sharpen opts)%float; [| done].
  by rewrite applySharpen_length.
Qed.

Lemma enhanceOne_dimensions_witness :
  ∃ r, enhanceOne stub_browser (mkFile (Js.str "a.png") [7%Z])
         (mkOptions 3 1.08 1.12 0.25) = Ok r ∧
  ∃ bm, createImageBitmap stub_browser (mkFile (Js.str "a.png") [7%Z]) = Some bm ∧
        width (canvas r) = Z.pos (bm_width bm * 3) ∧
        height (canvas r) = Z.pos (bm_height bm * 3) ∧
        length (data (canvas r))
        = length (data (resampled stub_browser bm (mkOptions 3 1.08 1.12 0.25))).
Proof.
  assert (H : ∃ r, enhanceOne stub_browser (mkFile (Js.str "a.png") [7%Z])
                     (mkOptions 3 1.08 1.12 0.25) = Ok r)
    by (eexists; vm_compute; reflexivity).
  destruct H as [r Hr]. exists r. split; [exact Hr |].
  exact (enhanceOne_dimensions _ _ _ r Hr).
Defined.

(** X5: [enhanceOne] fails exactly when the bitmap cannot be decoded, the
    canvas gives no 2D context, or the final canvas cannot be encoded; the
    last two with the messages of lines 550 and 855.  No value of the
    options makes it fail. *)
Theorem enhanceOne_failures
    (B : Browser) (file : File) (opts : ProcessingOptions) :
  let final bm :=
    if (0 <? sharpen opts)%float
    then applySharpen (resampled B bm opts) (sharpen opts)
    else resampled B bm opts in
  ((∃ e, enhanceOne B file opts = Err e) ↔
     createImageBitmap B file = None ∨ getContext2d B = false ∨
     ∃ bm, createImageBitmap B file = Some bm ∧ toBlob B (final bm) = None) ∧
  (∀ bm, createImageBitmap B file = Some bm → getContext2d B = false →
         enhanceOne B file opts = Err "Impossible d’accéder au canvas.") ∧
  (∀ bm, createImageBitmap B file = Some bm → getContext2d B = true →
         toBlob B (final bm) = None →
         enhanceOne B file opts = Err "Impossible de générer le blob.").
Proof.
  intros final. unfold enhanceOne, canvasToBlob. split_and!.
  - destruct (createImageBitmap B file) as [bm |]; simpl.
    + destruct (getContext2d B); simpl.
      * fold (final bm). destruct (toBlob B (final bm)) eqn:Hb; simpl.
        -- split; [by intros [? ?] |].
           intros [? | [? | (bm' & [= <-] & Hn)]]; [done | done |].
           subst final. simpl in *. congruence.
        -- split; [| eauto]. intros _. right. right. by exists bm.
      * split; [| eauto]. intros _. right. by left.
    + split; [| eauto]. intros _. by left.
  - intros bm -> ->. done.
  - intros bm -> -> Hb. simpl. fold (final bm). by rewrite Hb.
Qed.

(** ** More on [brandingText] *)

(** X6: the brand tag never holds a whitespace character, and a non-empty
    brand made of whitespace only still yields a tag: the bare [#]. *)
Theorem brandingText_no_whitespace (brand : jsstring) :
  Forall (fun c => Js.is_space c = false) (brandingText brand) ∧
  match brand with
  | [] => brandingText brand = []
  | _ :: _ =>
      if forallb Js.is_space brand
      then brandingText brand = [Js.hash]
      else length (brandingText brand) > 1
  end.
Proof.
  split.
  - unfold brandingText. destruct (Js.truthy brand); [| done].
    constructor; [done |]. rewrite strip_spaces_filter.
    apply Forall_forall. by intros c [? _]%list_elem_of_filter.
  - destruct brand as [| c brand]; [done |].
    unfold brandingText. cbn [Js.truthy].
    generalize (c :: brand) as s. clear. intros s.
    induction s as [| a s IH]; [done |].
    simpl. destruct (Js.is_space a); simpl.
    + destruct (forallb Js.is_space s); simpl in *; [done | lia].
    + lia.
Qed.

(** ** More on [wrapText] *)

Lemma wrapText_app_cur text fontSize maxWidth :
  ∃ lines cur,
    foldl (wrap_step fontSize maxWidth) ([], []) (Js.split text) = (lines, cur) ∧
    wrapText text fontSize maxWidth
    = if Js.truthy cur then lines ++ [cur] else lines.
Proof.
  unfold wrapText. destruct (foldl _ _ _) as [lines cur]. eauto.
Qed.

(** Lines and the current line start with a character that is no space. *)
Lemma wrap_step_starts fontSize maxWidth st word :
  Forall (fun l => ∃ c r, l = c :: r ∧ c ≠ Js.space) st.1 →
  (st.2 = [] ∨ ∃ c r, st.2 = c :: r ∧ c ≠ Js.space) →
  Js.space ∉ word →
  let st' := wrap_step fontSize maxWidth st word in
  Forall (fun l => ∃ c r, l = c :: r ∧ c ≠ Js.space) st'.1 ∧
  (st'.2 = [] ∨ ∃ c r, st'.2 = c :: r ∧ c ≠ Js.space).
Proof.
  destruct st as [lines cur]. simpl. intros Hl Hc Hw.
  assert (Hword : word = [] ∨ ∃ c r, word = c :: r ∧ c ≠ Js.space).
  { destruct word as [| c r]; [by left | right].
    exists c, r. split; [done |]. intros ->. apply Hw. by left. }
  destruct cur as [| c cur]; cbn [Js.truthy].
  - by destruct (too_wide _ _ _).
  - destruct Hc as [? | Hc]; [done |].
    destruct (too_wide _ _ _); simpl.
    + split; [| done]. apply Forall_app. split; [done |]. by constructor.
    + split; [done |]. right. destruct Hc as (c' & r' & [= -> ->] & ?).
      by exists c', (r' ++ Js.space :: word).
Qed.

Lemma wrap_fold_starts fontSize maxWidth ws st :
  Forall (fun l => ∃ c r, l = c :: r ∧ c ≠ Js.space) st.1 →
  (st.2 = [] ∨ ∃ c r, st.2 = c :: r ∧ c ≠ Js.space) →
  (∀ w, w ∈ ws → Js.space ∉ w) →
  let st' := foldl (wrap_step fontSize maxWidth) st ws in
  Forall (fun l => ∃ c r, l = c :: r ∧ c ≠ Js.space) st'.1 ∧
  (st'.2 = [] ∨ ∃ c r, st'.2 = c :: r ∧ c ≠ Js.space).
Proof.
  revert st. induction ws as [| w ws IH]; intros st Hl Hc Hws; [done |].
  simpl. destruct (wrap_step_starts fontSize maxWidth st w Hl Hc) as [Hl' Hc'].
  { apply Hws. by left. }
  apply IH; [done | done |]. intros w' Hw'. apply Hws. by right.
Qed.

(** X7: no line of the result is empty and none begins with a space. *)
Theorem wrapText_lines_start_with_a_word
    (text : jsstring) (fontSize maxWidth : float) :
  Forall (fun line => ∃ c rest, line = c :: rest ∧ c ≠ Js.space)
         (wrapText text fontSize maxWidth).
Proof.
  destruct (wrapText_app_cur text fontSize maxWidth) as (lines & cur & Hf & ->).
  destruct (wrap_fold_starts fontSize maxWidth (Js.split text) ([], []))
    as [Hl Hc]; [done | by left | intros w; apply split_no_space |].
  rewrite Hf in Hl, Hc. simpl in Hl, Hc.
  destruct cur as [| c cur]; cbn [Js.truthy]; [done |].
  apply Forall_app. split; [done |].
  destruct Hc as [? | Hc]; [done |]. by constructor.
Qed.

Lemma join_split (s : jsstring) : JsText.join [Js.space] (Js.split s) = s.
Proof.
  induction s as [| c s IH]; [done |].
  simpl. pose proof (split_nonempty s) as Hne.
  destruct (c =? Js.space)%N eqn:E.
  - apply N.eqb_eq in E as ->.
    destruct (Js.split s) as [| w ws]; [done |]. simpl in *. by rewrite IH.
  - destruct (Js.split s) as [| w ws]; [done |].
    destruct ws; simpl in *; by rewrite <- IH.
Qed.

Lemma join_snoc sep (l : list jsstring) x :
  l ≠ [] → JsText.join sep (l ++ [x]) = JsText.join sep l ++ sep ++ x.
Proof.
  induction l as [| a l IH]; [done |]. intros _.
  destruct l as [| b l]; [done |].
  change (JsText.join sep ((a :: b :: l) ++ [x]))
    with (a ++ sep ++ JsText.join sep ((b :: l) ++ [x])).
  rewrite IH by done.
  change (JsText.join sep (a :: b :: l))
    with (a ++ sep ++ JsText.join sep (b :: l)).
  by rewrite <- !app_assoc.
Qed.

Lemma join_last_app sep (l : list jsstring) a b :
  JsText.join sep (l ++ [a ++ b]) = JsText.join sep (l ++ [a]) ++ b.
Proof.
  destruct l as [| x l]; [done |].
  rewrite !join_snoc by done. by rewrite <- !app_assoc.
Qed.

Lemma first_word_word (w : jsstring) :
  Js.space ∉ w → JsText.first_word w = w.
Proof. intros H. unfold JsText.first_word. by rewrite split_word. Qed.

Lemma first_word_app_space (a b : jsstring) :
  JsText.first_word (a ++ Js.space :: b) = JsText.first_word a.
Proof.
  unfold JsText.first_word. rewrite split_app_space.
  pose proof (split_nonempty a). by destruct (Js.split a).
Qed.

Lemma breaks_forced_snoc fontSize maxWidth (l : list jsstring) a b :
  breaks_forced fontSize maxWidth (l ++ [a]) →
  too_wide (a ++ Js.space :: JsText.first_word b) fontSize maxWidth = true →
  breaks_forced fontSize maxWidth ((l ++ [a]) ++ [b]).
Proof.
  intros Hl Hab. induction l as [| x l IH]; [done |].
  destruct l as [| y l]; simpl in *; [by destruct Hl |].
  destruct Hl as [Hxy Hl]. split; [done |]. by apply IH.
Qed.

Lemma breaks_forced_last fontSize maxWidth (l : list jsstring) a a' :
  breaks_forced fontSize maxWidth (l ++ [a]) →
  JsText.first_word a' = JsText.first_word a →
  breaks_forced fontSize maxWidth (l ++ [a']).
Proof.
  intros Hl Hfw. induction l as [| x l IH]; [done |].
  destruct l as [| y l]; simpl in *.
  - destruct Hl as [Hxa _]. by rewrite Hfw.
  - destruct Hl as [Hxy Hl]. split; [done |]. by apply IH.
Qed.

Lemma wrap_step_truthy fontSize maxWidth lines cur word :
  cur ≠ [] →
  wrap_step fontSize maxWidth (lines, cur) word
  = if too_wide (cur ++ Js.space :: word) fontSize maxWidth
    then (lines ++ [cur], word)
    else (lines, cur ++ Js.space :: word).
Proof. intros H. unfold wrap_step. by destruct cur. Qed.

(** With no empty word, the current line is never empty after the first
    word, and lines plus current line joined by spaces spell the words
    seen, each break being forced. *)
Lemma wrap_fold_join fontSize maxWidth ws :
  ∀ lines cur seen,
    cur ≠ [] → seen ≠ [] →
    JsText.join [Js.space] (lines ++ [cur]) = JsText.join [Js.space] seen →
    breaks_forced fontSize maxWidth (lines ++ [cur]) →
    Forall (fun w => w ≠ [] ∧ Js.space ∉ w) ws →
    ∃ lines' cur',
      foldl (wrap_step fontSize maxWidth) (lines, cur) ws = (lines', cur') ∧
      cur' ≠ [] ∧
      JsText.join [Js.space] (lines' ++ [cur'])
      = JsText.join [Js.space] (seen ++ ws) ∧
      breaks_forced fontSize maxWidth (lines' ++ [cur']).
Proof.
  induction ws as [| w ws IH]; intros lines cur seen Hcur Hseen Hjoin Hbr Hws.
  - exists lines, cur. by rewrite app_nil_r.
  - apply Forall_cons in Hws as [[Hw Hsp] Hws].
    rewrite (cons_middle w seen ws), app_assoc.
    cbn [foldl]. rewrite (wrap_step_truthy _ _ _ _ _ Hcur).
    assert (Hs1 : seen ++ [w] ≠ []) by (by destruct seen).
    assert (Hl1 : lines ++ [cur] ≠ []) by (by destruct lines).
    destruct (too_wide (cur ++ Js.space :: w) fontSize maxWidth) eqn:E.
    + apply IH; [done | done | | | done].
      * rewrite (join_snoc _ (lines ++ [cur])) by done.
        rewrite Hjoin. by rewrite (join_snoc _ seen).
      * apply breaks_forced_snoc; [done |]. by rewrite first_word_word.
    + apply IH; [by destruct cur | done | | | done].
      * change (cur ++ Js.space :: w) with (cur ++ ([Js.space] ++ w)).
        rewrite join_last_app, Hjoin. by rewrite (join_snoc _ seen).
      * eapply breaks_forced_last; [exact Hbr |]. apply first_word_app_space.
Qed.

(** With no empty word the loop ends on a non-empty current line, and
    the result is the lines followed by it. *)
Lemma wrapText_no_empty_word text fontSize maxWidth :
  Forall (.≠ []) (Js.split text) →
  ∃ lines cur,
    wrapText text fontSize maxWidth = lines ++ [cur] ∧
    JsText.join [Js.space] (lines ++ [cur])
    = JsText.join [Js.space] (Js.split text) ∧
    breaks_forced fontSize maxWidth (lines ++ [cur]).
Proof.
  intros Hne. unfold wrapText.
  pose proof (split_no_space text) as Hsp.
  pose proof (split_nonempty text) as Hn.
  destruct (Js.split text) as [| w ws]; [done |].
  apply Forall_cons in Hne as [Hw Hne].
  assert (Hfirst : wrap_step fontSize maxWidth ([], []) w = ([], w)).
  { unfold wrap_step. cbn [Js.truthy]. by destruct (too_wide _ _ _). }
  cbn [foldl]. rewrite Hfirst.
  destruct (wrap_fold_join fontSize maxWidth ws [] w [w])
    as (lines & cur & -> & Hcur & Hjoin & Hbr); [done | done | done | done | |].
  { apply Forall_forall. intros w' Hw'. split.
    - by eapply Forall_forall in Hne.
    - apply Hsp. by right. }
  destruct cur as [| c cur]; [done |]. cbn [Js.truthy].
  by exists lines, (c :: cur).
Qed.

(** X8: wrapping loses nothing: when the text has no empty word (no
    leading, trailing or doubled space, and is not empty), the lines joined
    by single spaces are the text again. *)
Theorem wrapText_join_is_text
    (text : jsstring) (fontSize maxWidth : float) :
  Forall (.≠ []) (Js.split text) →
  JsText.join [Js.space] (wrapText text fontSize maxWidth) = text.
Proof.
  intros H.
  destruct (wrapText_no_empty_word text fontSize maxWidth H)
    as (lines & cur & -> & Hjoin & _).
  rewrite Hjoin. apply join_split.
Qed.

Lemma wrapText_join_is_text_witness :
  JsText.join [Js.space] (wrapText (Js.str "hi abcdefgh yo") 10 22)
  = Js.str "hi abcdefgh yo".
Proof.
  apply wrapText_join_is_text.
  repeat (constructor; [discriminate |]). constructor.
Defined.

(** X9: the wrap is greedy: when the text has no empty word, every line
    break was forced, that is, the first word of each following line, put
    after the line before it and a space, fails the width test. *)
Theorem wrapText_breaks_are_forced
    (text : jsstring) (fontSize maxWidth : float) :
  Forall (.≠ []) (Js.split text) →
  breaks_forced fontSize maxWidth (wrapText text fontSize maxWidth).
Proof.
  intros H.
  destruct (wrapText_no_empty_word text fontSize maxWidth H)
    as (lines & cur & -> & _ & Hbr).
  exact Hbr.
Qed.

Lemma wrapText_breaks_are_forced_witness :
  breaks_forced 10 22 (wrapText (Js.str "hi abcdefgh yo") 10 22).
Proof.
  apply wrapText_breaks_are_forced.
  repeat (constructor; [discriminate |]). constructor.
Defined.

(** ** More on the frame loop *)

Lemma run_ticks_running job total (n : nat) :
  ∀ (f : Z) pres stp,
    (f + Z.of_nat n <= total)%Z →
    run_ticks job total n (mkLoop f pres true stp)
    = mkLoop (f + Z.of_nat n)
        (pres ++ (frame_call job total <$> seqZ f (Z.of_nat n))) true stp.
Proof.
  induction n as [| n IH]; intros f pres stp Hn.
  - simpl. rewrite app_nil_r. by rewrite Z.add_0_r.
  - cbn [run_ticks pending frame presented stopped].
    rewrite animate_continue by (simpl; lia). cbn [frame presented stopped].
    rewrite (IH (f + 1)%Z) by lia.
    rewrite (seqZ_cons f (Z.of_nat (S n))) by lia.
    replace (Z.pred (Z.of_nat (S n))) with (Z.of_nat n) by lia.
    replace (Z.succ f) with (f + 1)%Z by lia.
    rewrite fmap_cons, <- app_assoc.
    by replace (f + 1 + Z.of_nat n)%Z with (f + Z.of_nat (S n))%Z by lia.
Qed.

(** X10: while fewer ticks have run than [total], the recorder has not
    been stopped, a callback is pending, and the frames presented are
    exactly those of the counter values [0 .. ticks], in that order: none
    is skipped or repeated, and [recorder.stop()] does not come early. *)
Theorem frame_loop_before_the_end (job : VideoJob) (total : Z) (ticks : nat) :
  (Z.of_nat ticks < total)%Z →
  frame_loop job total ticks
  = mkLoop (Z.of_nat ticks + 1)
      (frame_call job total <$> seqZ 0 (Z.of_nat ticks + 1)) true false.
Proof.
  intros Ht. unfold frame_loop.
  rewrite animate_continue by (simpl; lia). cbn [frame presented stopped].
  rewrite run_ticks_running by lia.
  rewrite (seqZ_cons 0 (Z.of_nat ticks + 1)) by lia.
  replace (Z.pred (Z.of_nat ticks + 1)) with (Z.of_nat ticks) by lia.
  by replace (0 + 1 + Z.of_nat ticks)%Z with (Z.of_nat ticks + 1)%Z by lia.
Qed.

Lemma frame_loop_before_the_end_witness :
  frame_loop (video_job stub_math (mkImage 1 1) "casual" [] []) 360 2
  = mkLoop 3
      (frame_call (video_job stub_math (mkImage 1 1) "casual" [] []) 360
         <$> [0; 1; 2]%Z) true false.
Proof.
  apply (frame_loop_before_the_end
           (video_job stub_math (mkImage 1 1) "casual" [] []) 360 2).
  simpl. lia.
Defined.

(** ** More on [drawVideoFrame] *)

Lemma texts_drawn_lines lines y : texts_drawn (draw_lines lines y) = lines.
Proof.
  revert y. induction lines as [| l lines IH]; intros y; [done |].
  simpl. unfold texts_drawn in *. simpl. by rewrite IH.
Qed.

Lemma text_columns_lines lines y :
  Forall (fun x => x = 100%float) (text_columns (draw_lines lines y)).
Proof.
  revert y. induction lines as [| l lines IH]; intros y; [constructor |].
  simpl. unfold text_columns in *. simpl. constructor; [done | apply IH].
Qed.

(** X11: a frame draws the title, then every caption line it is given, in
    order and none left out however many there are, then the brand tag if
    it is not empty; all of it at x = 100. *)
Theorem drawVideoFrame_draws_every_line
    (M : MathLib) (image : HTMLImage) (w h progress : float)
    (accent : option string) (lines : list jsstring) (tag : jsstring) :
  texts_drawn (drawVideoFrame M image w h progress accent lines tag)
  = Js.str "Style & confort" :: lines ++ (if Js.truthy tag then [tag] else [])
  ∧ Forall (fun x => x = 100%float)
      (text_columns (drawVideoFrame M image w h progress accent lines tag)).
Proof.
  unfold drawVideoFrame. destruct (_ <? _)%float.
  all: split.
  all: unfold texts_drawn, text_columns; rewrite !omap_app;
    fold (texts_drawn (draw_lines lines (h - 420)));
    fold (text_columns (draw_lines lines (h - 420))).
  1,3: rewrite texts_drawn_lines; by destruct (Js.truthy tag).
  all: apply Forall_app; split; [by repeat constructor |];
    apply Forall_app; split; [apply text_columns_lines |];
    destruct (Js.truthy tag); by repeat constructor.
Qed.

(** ** More on [transcodeToMp4] *)

(** X12: the call returns a blob exactly when the encoder loads, [exec]
    returns (with whatever exit code: it is not looked at) and both
    [output.mp4] and [input.webm] exist afterwards.  The blob then holds
    the bytes of [output.mp4] with type [video/mp4], and the instance is
    left with the files [exec] left minus those two. *)
Theorem transcodeToMp4_success_iff
    (core : Ffmpeg.Core) (webm b : Blob) (files : gmap string (list Z)) :
  transcodeToMp4 core webm = (Ok b, files) ↔
  ∃ code m out inp,
    Ffmpeg.load core = Ok tt ∧
    Ffmpeg.exec core exec_args (<["input.webm" := blob_bytes webm]> ∅)
    = (Ok code, m) ∧
    m !! "output.mp4" = Some out ∧ m !! "input.webm" = Some inp ∧
    b = mkBlob out "video/mp4" ∧
    files = delete "output.mp4" (delete "input.webm" m).
Proof.
  unfold transcodeToMp4, transcode_body, Ffmpeg.bind, Ffmpeg.writeFile,
    Ffmpeg.readFile, Ffmpeg.deleteFile, Ffmpeg.ret.
  destruct (Ffmpeg.load core) as [[] | e] eqn:Hload.
  2: { split; [done | by intros (? & ? & ? & ? & ? & _)]. }
  destruct (Ffmpeg.exec core exec_args _) as [[code | e] m] eqn:Hexec.
  2: { split; [done | by intros (? & ? & ? & ? & _ & ? & _)]. }
  destruct (m !! "output.mp4") as [out |] eqn:Hout.
  2: { split; [done |]. intros (? & ? & ? & ? & _ & [= _ <-] & ? & _). congruence. }
  destruct (m !! "input.webm") as [inp |] eqn:Hin.
  2: { split; [done |]. intros (? & ? & ? & ? & _ & [= _ <-] & _ & ? & _). congruence. }
  rewrite lookup_delete_ne by done. rewrite Hout.
  split.
  - intros [= <- <-]. by exists code, m, out, inp.
  - intros (? & ? & ? & ? & _ & [= _ <-] & Ho & _ & -> & ->).
    rewrite Hout in Ho. by inversion Ho.
Qed.

(** ** More on [processFiles] *)

(** X13: the callback never removes or reorders what the gallery holds: it
    puts either one new entry per file or nothing in front of it, adds at
    most one message at the end of the console, and changes the processing
    flag only to reset it. *)
Theorem processFiles_only_prepends
    (env : PageEnv) (files : list File) (st : PageState) :
  ∃ new errors,
    enhanced (processFiles env files st) = new ++ enhanced st ∧
    console (processFiles env files st) = console st ++ errors ∧
    (length new = length files ∧ errors = [] ∨
     new = [] ∧ length errors = 1%nat) ∧
    (processing (processFiles env files st) = false ∨
     processing (processFiles env files st) = processing st).
Proof.
  unfold processFiles. destruct files as [| f files].
  - exists [], []. simpl. rewrite app_nil_r. split_and!; auto.
  - destruct (process_loop env (f :: files) []) as [results | e] eqn:Hloop.
    + exists results, []. simpl. rewrite app_nil_r. split_and!; auto.
      left. split; [| done].
      assert (Hlen : ∀ fs acc res, process_loop env fs acc = Ok res →
                length res = (length acc + length fs)%nat).
      { clear. induction fs as [| g fs IH]; intros acc res H; simpl in *.
        - inversion H. lia.
        - destruct (process_one env g); [| done].
          apply IH in H. rewrite length_app in H. simpl in H. lia. }
      by apply Hlen in Hloop.
    + exists [], [e]. simpl. split_and!; auto.
Qed.

(** X14: the entry made for a file carries the file's name, the name and
    the clock reading as its id, the scale of the options, and the size of
    the enhanced canvas, which is the bitmap's size times that scale; when
    the models are not ready its clothing list is empty, the detector not
    being consulted. *)
Theorem process_one_entry
    (env : PageEnv) (file : File) (item : EnhancedImage) :
  process_one env file = Ok item →
  name item = file_name file ∧
  id item = (file_name file, now env) ∧
  e_scale item = scale (options env) ∧
  (modelReady env = false → clothing item = []) ∧
  script item
  = buildScript env (clothing item) (trim env (brandName env)) (vibe env) ∧
  ∃ bm, createImageBitmap (env_browser env) file = Some bm ∧
        e_width item = Z.pos (bm_width bm * scale (options env)) ∧
        e_height item = Z.pos (bm_height bm * scale (options env)).
Proof.
  unfold process_one. intros H.
  destruct (enhanceOne (env_browser env) file (options env)) as [r | e] eqn:Hr;
    [| done].
  apply enhanceOne_ok_inv in Hr as (bm & Hbm & Hw & Hh & _).
  simpl in H. destruct (modelReady env) eqn:Hm.
  - destruct (detectClothing env (canvas r)) as [labels | e]; [| done].
    simpl in H. inversion H; subst item; clear H. simpl.
    split_and!; try done. exists bm. by rewrite <- Hw, <- Hh.
  - simpl in H. inversion H; subst item; clear H. simpl.
    split_and!; try done. exists bm. by rewrite <- Hw, <- Hh.
Qed.

Lemma process_one_entry_witness :
  ∃ item, process_one stub_env (mkFile (Js.str "a.png") [7%Z]) = Ok item ∧
          name item = Js.str "a.png" ∧ e_width item = 2%Z ∧
          clothing item = [].
Proof.
  assert (H : ∃ item, process_one stub_env (mkFile (Js.str "a.png") [7%Z]) = Ok item)
    by (eexists; vm_compute; reflexivity).
  destruct H as [item Hitem]. exists item. split; [exact Hitem |].
  destruct (process_one_entry stub_env _ item Hitem)
    as (Hn & _ & _ & Hc & _ & bm & Hbm & Hw & _).
  split; [exact Hn |]. split.
  - rewrite Hw. simpl in Hbm. by inversion Hbm.
  - by apply Hc.
Defined.

(** ** More on [clamp] *)

Lemma is_nan_Prim2SF f : PrimFloat.is_nan f = false → Prim2SF f ≠ S754_nan.
Proof.
  unfold PrimFloat.is_nan. rewrite FloatAxioms.eqb_spec. intros H Hn.
  rewrite Hn in H. done.
Qed.

(** X15: [clamp] maps NaN to NaN and any other number to a number that is
    neither below 0 nor above 255, and clamping twice is clamping once. *)
Theorem clamp_bounds_idempotent (v : float) :
  PrimFloat.is_nan (clamp v) = PrimFloat.is_nan v ∧
  (clamp v <? 0)%float = false ∧ (255 <? clamp v)%float = false ∧
  clamp (clamp v) = clamp v.
Proof.
  unfold clamp, JsNum.max, JsNum.min.
  change (PrimFloat.is_nan 255) with false.
  change (PrimFloat.is_nan 0) with false. cbn [orb].
  destruct (PrimFloat.is_nan v) eqn:Hn; [done |].
  destruct (255 <? v)%float eqn:H255.
  - by vm_compute.
  - rewrite Hn. destruct (0 <? v)%float eqn:H0.
    + rewrite Hn, H255, Hn, H0. split_and!; try done.
      rewrite ltb_spec in H0 |- *.
      change (Prim2SF 0) with (S754_zero false) in *.
      destruct (Prim2SF v) as [[] | [] | | [] m e]; done.
    + by vm_compute.
Qed.

(** X16: the explicit [clamp] before a store into the pixel buffer changes
    nothing: the typed array's own conversion gives the same byte with or
    without it. *)
Theorem store_of_clamp (v : float) :
  JsNum.to_uint8_clamp (clamp v) = JsNum.to_uint8_clamp v.
Proof.
  unfold clamp, JsNum.max, JsNum.min.
  change (PrimFloat.is_nan 255) with false.
  change (PrimFloat.is_nan 0) with false. cbn [orb].
  destruct (PrimFloat.is_nan v) eqn:Hn.
  { unfold JsNum.to_uint8_clamp. by rewrite Hn. }
  pose proof (is_nan_Prim2SF v Hn) as Hnn.
  destruct (255 <? v)%float eqn:H255.
  - change (JsNum.to_uint8_clamp _) with 255%Z at 1.
    unfold JsNum.to_uint8_clamp. rewrite Hn.
    rewrite ltb_spec in H255. rewrite !leb_spec.
    change (Prim2SF 0) with (S754_zero false).
    change (Prim2SF 255) with (S754_finite false 8972014882652160 (-45)) in *.
    unfold SFltb, SFleb, SFcompare in *.
    destruct (Prim2SF v) as [[] | [] | | [] m e]; try done.
    destruct (-45 ?= e)%Z; try done.
    by destruct (Pos.compare_cont Eq 8972014882652160 m).
  - rewrite Hn. destruct (0 <? v)%float eqn:H0; [done |].
    change (JsNum.to_uint8_clamp 0) with 0%Z.
    unfold JsNum.to_uint8_clamp. rewrite Hn.
    rewrite ltb_spec in H0. rewrite leb_spec.
    change (Prim2SF 0) with (S754_zero false) in *.
    unfold SFltb, SFleb, SFcompare in *.
    destruct (Prim2SF v) as [[] | [] | | [] m e]; done.
Qed.

(** ** [normalizeLabel] *)

Lemma spaced_from_any b s :
  Label.spaced_from true s = true → Label.spaced_from b s = true.
Proof.
  destruct s as [| c s]; [done |]. simpl.
  destruct (Js.is_space c); [| done].
  rewrite andb_false_r. done.
Qed.

Lemma replace_underscores_spaced b s :
  Label.spaced_from b s = true → Label.replace_underscores s = s.
Proof.
  revert b. induction s as [| c s IH]; intros b H; [done |].
  unfold Label.replace_underscores in *. simpl in *.
  destruct (Js.is_space c) eqn:Hc.
  - apply andb_prop in H as [[Hsp _]%andb_prop H].
    apply N.eqb_eq in Hsp as ->. simpl. f_equal. by eapply IH.
  - apply andb_prop in H as [Hu H].
    destruct (c =? Label.underscore)%N; [done |]. f_equal. by eapply IH.
Qed.

Lemma collapse_from_spaced b s :
  Label.spaced_from b s = true → Label.collapse_from b s = s.
Proof.
  revert b. induction s as [| c s IH]; intros b H; [done |].
  simpl in *. destruct (Js.is_space c) eqn:Hc.
  - apply andb_prop in H as [[Hsp Hb]%andb_prop H].
    apply N.eqb_eq in Hsp as ->. destruct b; [done |]. by rewrite IH.
  - apply andb_prop in H as [_ H]. by rewrite IH.
Qed.

Lemma trim_start_spaced s :
  Label.spaced_from true s = true → Label.trim_start s = s.
Proof.
  destruct s as [| c s]; [done |]. simpl.
  destruct (Js.is_space c); [| done]. by rewrite andb_false_r.
Qed.

Lemma trim_end_no_trailing s :
  Label.ends_with_space s = false → Label.trim_end s = s.
Proof.
  induction s as [| c s IH]; [done |]. intros H.
  unfold Label.ends_with_space in *. simpl.
  destruct s as [| c' s]; simpl in *.
  - by rewrite H.
  - rewrite IH by done. done.
Qed.

Lemma normal_fixed s :
  Label.normal s = true →
  Label.replace_underscores s = s ∧ Label.collapse_spaces s = s ∧
  Label.trim s = s.
Proof.
  unfold Label.normal. intros [Hs He%negb_true_iff]%andb_prop. split_and!.
  - by eapply replace_underscores_spaced.
  - apply collapse_from_spaced. by apply spaced_from_any.
  - unfold Label.trim. rewrite trim_start_spaced by done.
    by apply trim_end_no_trailing.
Qed.

Lemma replace_underscores_none s :
  Forall (fun c => (c =? Label.underscore)%N = false)
         (Label.replace_underscores s).
Proof.
  unfold Label.replace_underscores. apply Forall_fmap, Forall_true.
  intros c. simpl. by destruct (c =? Label.underscore)%N eqn:E.
Qed.

Lemma collapse_from_is_spaced b s :
  Forall (fun c => (c =? Label.underscore)%N = false) s →
  Label.spaced_from b (Label.collapse_from b s) = true.
Proof.
  intros Hs. revert b. induction Hs as [| c s Hc _ IH]; intros b; [done |].
  simpl. destruct (Js.is_space c) eqn:E.
  - destruct b; [apply IH |]. simpl. apply IH.
  - simpl. rewrite E, Hc. simpl. apply IH.
Qed.

Lemma trim_start_is_spaced b s :
  Label.spaced_from b s = true →
  Label.spaced_from true (Label.trim_start s) = true.
Proof.
  revert b. induction s as [| c s IH]; intros b H; [done |].
  simpl in *. destruct (Js.is_space c) eqn:E.
  - apply andb_prop in H as [_ H]. by eapply IH.
  - simpl. by rewrite E.
Qed.

Lemma trim_end_is_spaced b s :
  Label.spaced_from b s = true →
  Label.spaced_from b (Label.trim_end s) = true.
Proof.
  revert b. induction s as [| c s IH]; intros b H; [done |].
  simpl in *. destruct (Js.is_space c) eqn:E.
  - apply andb_prop in H as [H1 H]. specialize (IH true H).
    destruct (Label.trim_end s) as [| c' t]; [done |].
    cbn [Label.spaced_from]. rewrite E. by rewrite H1.
  - apply andb_prop in H as [H1 H]. specialize (IH false H).
    destruct (Label.trim_end s) as [| c' t].
    + simpl. by rewrite E, H1.
    + cbn [Label.spaced_from]. rewrite E. by rewrite H1.
Qed.

Lemma trim_end_no_space s :
  Label.ends_with_space (Label.trim_end s) = false.
Proof.
  induction s as [| c s IH]; [done |]. simpl.
  destruct (Label.trim_end s) as [| c' t] eqn:Ht.
  - by destruct (Js.is_space c) eqn:E; unfold Label.ends_with_space; simpl;
      rewrite ?E.
  - unfold Label.ends_with_space in *. by simpl in *.
Qed.

(** Lower-case letters, checked one by one. *)
Lemma lower_case_facts (c : N) :
  (97 <= c <= 122)%N →
  Js.is_space c = false ∧ Js.is_space (c - 32) = false ∧
  (c =? Label.underscore)%N = false ∧ (c - 32 =? Label.underscore)%N = false ∧
  Label.is_word c = true ∧ Label.is_word (c - 32) = true ∧
  Label.to_upper (c - 32) = (c - 32)%N.
Proof.
  intros Hc.
  assert (Hin : c ∈ N.of_nat <$> seq 97 26).
  { apply list_elem_of_fmap. exists (N.to_nat c). split; [lia |].
    apply list_elem_of_In, in_seq. lia. }
  revert Hin. generalize c. apply Forall_forall. clear.
  vm_compute. repeat constructor.
Qed.

(** What capitalising does to one character keeps its class. *)
Lemma to_upper_class (c : N) :
  Js.is_space (Label.to_upper c) = Js.is_space c ∧
  (Label.to_upper c =? Label.underscore)%N = (c =? Label.underscore)%N ∧
  (Js.is_space c = true → Label.to_upper c = c) ∧
  Label.is_word (Label.to_upper c) = Label.is_word c ∧
  Label.to_upper (Label.to_upper c) = Label.to_upper c.
Proof.
  assert (Hcase : Label.to_upper c = c ∨
                  (97 <= c <= 122)%N ∧ Label.to_upper c = (c - 32)%N).
  { unfold Label.to_upper.
    destruct ((97 <=? c) && (c <=? 122))%N eqn:E; [right | by left].
    apply andb_prop in E as [E1%N.leb_le E2%N.leb_le]. split; [lia | done]. }
  destruct Hcase as [Hid | [Hc Hup]].
  - rewrite !Hid. split_and!; done.
  - destruct (lower_case_facts c Hc) as (A & B & C & D & F & G & H).
    rewrite !Hup, H, A, B, C, D, F, G. split_and!; done.
Qed.

Lemma capitalize_spaced p b s :
  Label.spaced_from b (Label.capitalize_from p s) = Label.spaced_from b s.
Proof.
  revert p b. induction s as [| c s IH]; intros p b; [done |].
  destruct (to_upper_class c) as (A & B & C & _).
  simpl. destruct (Label.is_word c && negb p).
  - rewrite A, B. destruct (Js.is_space c) eqn:E.
    + rewrite (C eq_refl). by rewrite IH.
    + by rewrite IH.
  - by rewrite !IH.
Qed.

Lemma capitalize_ends p s :
  Label.ends_with_space (Label.capitalize_from p s) = Label.ends_with_space s.
Proof.
  revert p. induction s as [| c s IH]; intros p; [done |].
  destruct (to_upper_class c) as (A & _).
  unfold Label.ends_with_space in *. simpl.
  destruct s as [| c' s].
  - simpl. by destruct (Label.is_word c && negb p).
  - specialize (IH (Label.is_word c)). simpl in *.
    by destruct (Label.is_word c && negb p).
Qed.

Lemma capitalize_twice p s :
  Label.capitalize_from p (Label.capitalize_from p s)
  = Label.capitalize_from p s.
Proof.
  revert p. induction s as [| c s IH]; intros p; [done |].
  destruct (to_upper_class c) as (_ & _ & _ & W & T).
  simpl. destruct (Label.is_word c && negb p) eqn:E.
  - rewrite W, E, T. f_equal.
    apply andb_prop in E as [-> _]. apply IH.
  - rewrite E. f_equal. apply IH.
Qed.

Lemma normalizeLabel_is_normal label :
  Label.normal (Label.normalizeLabel label) = true.
Proof.
  unfold Label.normalizeLabel, Label.normal.
  rewrite capitalize_spaced, capitalize_ends.
  unfold Label.trim. rewrite trim_end_no_space. rewrite andb_true_r.
  apply trim_end_is_spaced. eapply trim_start_is_spaced.
  apply (collapse_from_is_spaced false), replace_underscores_none.
Qed.

(** X17: a normalised label is in normal form: it holds no underscore, its
    only whitespace is the single space, never doubled, never first or
    last; replacing underscores, collapsing whitespace or trimming it again
    changes nothing. *)
Theorem normalizeLabel_normal_form (label : jsstring) :
  let l := Label.normalizeLabel label in
  Label.normal l = true ∧
  Label.replace_underscores l = l ∧ Label.collapse_spaces l = l ∧
  Label.trim l = l.
Proof.
  intros l. split; [apply normalizeLabel_is_normal |].
  apply normal_fixed, normalizeLabel_is_normal.
Qed.

(** X18: normalising is idempotent. *)
Theorem normalizeLabel_idempotent (label : jsstring) :
  Label.normalizeLabel (Label.normalizeLabel label)
  = Label.normalizeLabel label.
Proof.
  destruct (normal_fixed _ (normalizeLabel_is_normal label)) as (Hr & Hc & Ht).
  unfold Label.normalizeLabel at 1. rewrite Hr, Hc, Ht.
  unfold Label.normalizeLabel. apply capitalize_twice.
Qed.

Example normalizeLabel_examples :
  Label.normalizeLabel (Js.str "t-shirt") = Js.str "T-Shirt" ∧
  Label.normalizeLabel (Js.str "  tennis_ball   bag ") = Js.str "Tennis Ball Bag".
Proof. by vm_compute. Qed.

(** ** [detectClothing] *)

Lemma str_eqb_eq (a b : jsstring) : Label.str_eqb a b = true ↔ a = b.
Proof.
  revert b. induction a as [| x a IH]; intros [| y b]; simpl; try done.
  rewrite andb_true_iff, N.eqb_eq, IH. split; [by intros [-> ->] | by intros [= -> ->]].
Qed.

Lemma has_elem_of (set : list jsstring) x : Label.has set x = true ↔ x ∈ set.
Proof.
  unfold Label.has. rewrite existsb_exists. split.
  - intros (y & Hy & ->%str_eqb_eq). by apply list_elem_of_In.
  - intros Hx. exists x. split; [by apply list_elem_of_In | by apply str_eqb_eq].
Qed.

Lemma set_add_spec x d :
  (NoDup d → NoDup (Label.set_add x d)) ∧
  (∀ y, y ∈ Label.set_add x d ↔ y = x ∨ y ∈ d).
Proof.
  unfold Label.set_add. destruct (Label.has d x) eqn:Hh; split.
  - done.
  - apply has_elem_of in Hh. intros y. split; [by right | by intros [-> | ?]].
  - intros Hd. apply NoDup_app. split_and!; [done | | apply NoDup_singleton].
    intros y Hy ->%list_elem_of_singleton.
    apply has_elem_of in Hy. congruence.
  - intros y. rewrite elem_of_app, list_elem_of_singleton. tauto.
Qed.

(** The invariant of all three loops: no label twice, every label from
    the vocabulary. *)
Lemma add_coco_inv d classes :
  NoDup d → d ⊆ Label.vocabulary →
  NoDup (Label.add_coco d classes) ∧ Label.add_coco d classes ⊆ Label.vocabulary.
Proof.
  unfold Label.add_coco. revert d.
  induction classes as [| c classes IH]; intros d Hnd Hsub; [done |].
  cbn [foldl]. apply IH.
  - destruct (Label.has Label.cocoClothingLabels c); [| done].
    by apply (proj1 (set_add_spec _ _)).
  - destruct (Label.has Label.cocoClothingLabels c) eqn:Hc; [| done].
    apply has_elem_of in Hc.
    intros y [-> | Hy]%set_add_spec; [| by apply Hsub].
    unfold Label.vocabulary. apply list_elem_of_fmap. exists c.
    split; [done |]. apply elem_of_app. by left.
Qed.

Lemma add_keywords_inv normalized kws d :
  kws ⊆ Label.clothingKeywords →
  NoDup d → d ⊆ Label.vocabulary →
  let d' := foldl (fun d keyword =>
                     if Label.includes normalized keyword
                     then Label.set_add (Label.normalizeLabel keyword) d else d)
                  d kws in
  NoDup d' ∧ d' ⊆ Label.vocabulary.
Proof.
  revert d. induction kws as [| k kws IH]; intros d Hk Hnd Hsub; [done |].
  cbn [foldl]. apply IH.
  - intros y Hy. apply Hk. by right.
  - destruct (Label.includes normalized k); [| done].
    by apply (proj1 (set_add_spec _ _)).
  - destruct (Label.includes normalized k); [| done].
    intros y [-> | Hy]%set_add_spec; [| by apply Hsub].
    unfold Label.vocabulary. apply list_elem_of_fmap. exists k.
    split; [done |]. apply elem_of_app. right. apply Hk. by left.
Qed.

Lemma add_mobilenet_inv lower d classNames :
  NoDup d → d ⊆ Label.vocabulary →
  NoDup (Label.add_mobilenet lower d classNames) ∧
  Label.add_mobilenet lower d classNames ⊆ Label.vocabulary.
Proof.
  unfold Label.add_mobilenet. revert d.
  induction classNames as [| c classNames IH]; intros d Hnd Hsub; [done |].
  cbn [foldl].
  destruct (add_keywords_inv (lower c) Label.clothingKeywords d) as [H1 H2];
    [done | done | done |].
  by apply IH.
Qed.

(** X19: whatever the two models predict, the labels returned are pairwise
    distinct and all taken from the fixed vocabulary (the normalised COCO
    clothing classes and keywords), so there are never more than the 50
    entries of the two tables. *)
Theorem detectClothing_labels
    (toLowerCase : jsstring → jsstring) (decoded : bool)
    (cocoModel mobilenetModel : option (result (list jsstring)))
    (labels : list jsstring) :
  Label.detectClothing toLowerCase decoded cocoModel mobilenetModel = Ok labels →
  NoDup labels ∧ labels ⊆ Label.vocabulary ∧ length labels <= 50.
Proof.
  intros H.
  assert (Hinv : NoDup labels ∧ labels ⊆ Label.vocabulary).
  { unfold Label.detectClothing in H. destruct decoded; [| done].
    cbn [negb] in H.
    assert (Hc : ∃ d, match cocoModel with
                      | None => Ok []
                      | Some predictions =>
                          bind_result predictions
                            (fun classes => Ok (Label.add_coco [] classes))
                      end = Ok d ∧ NoDup d ∧ d ⊆ Label.vocabulary).
    { destruct cocoModel as [[classes | e] |]; [| done |].
      - eexists. split; [reflexivity |].
        apply add_coco_inv; [apply NoDup_nil_2 | apply list_subseteq_nil].
      - exists []. split; [done |].
        split; [apply NoDup_nil_2 | apply list_subseteq_nil]. }
    destruct Hc as (d & Hc & Hnd & Hsub). rewrite Hc in H.
    cbn [bind_result] in H.
    destruct mobilenetModel as [[classNames | e] |]; cbn [bind_result] in H.
    - inversion H; subst labels. by apply add_mobilenet_inv.
    - done.
    - by inversion H; subst labels. }
  destruct Hinv as [Hnd Hsub]. split_and!; [done | done |].
  replace 50 with (length Label.vocabulary).
  - by apply submseteq_length, NoDup_submseteq.
  - unfold Label.vocabulary, Label.cocoClothingLabels, Label.clothingKeywords.
    by rewrite length_fmap, length_app, !length_fmap.
Qed.

Lemma detectClothing_labels_witness :
  NoDup [Js.str "Backpack"; Js.str "Shirt"; Js.str "T-Shirt"; Js.str "Tee"] ∧
  [Js.str "Backpack"; Js.str "Shirt"; Js.str "T-Shirt"; Js.str "Tee"]
    ⊆ Label.vocabulary ∧
  length [Js.str "Backpack"; Js.str "Shirt"; Js.str "T-Shirt"; Js.str "Tee"] <= 50.
Proof.
  apply (detectClothing_labels (fun s => s) true
           (Some (Ok [Js.str "dog"; Js.str "backpack"; Js.str "backpack"]))
           (Some (Ok [Js.str "jersey, t-shirt, tee shirt"]))).
  vm_compute. reflexivity.
Defined.

(** X20: a failure of the detector is not absorbed: when the models are
    ready and detection fails on an image that enhanced fine, no entry is
    made for the image and the detector's error is what the loop body
    throws, so the batch is dropped as for an enhancement failure. *)
Theorem process_one_detection_failure
    (env : PageEnv) (file : File) (r : EnhanceResult) (e : string) :
  modelReady env = true →
  enhanceOne (env_browser env) file (options env) = Ok r →
  detectClothing env (canvas r) = Err e →
  process_one env file = Err e ∧
  ∀ before after st,
    Forall (fun g => ∃ it, process_one env g = Ok it) before →
    processFiles env (before ++ file :: after) st
    = mkState (enhanced st) false (console st ++ [e]).
Proof.
  intros Hm Hr Hd.
  assert (Hone : process_one env file = Err e).
  { unfold process_one. by rewrite Hr, Hm; simpl; rewrite Hd. }
  split; [done |]. intros before after st Hb. unfold processFiles.
  rewrite (process_loop_err env before file after e Hb Hone).
  by destruct before.
Qed.

Lemma process_one_detection_failure_witness :
  process_one
    (mkEnv stub_browser (mkOptions 2 1 1 0) [] "casual" true
       (fun _ => Err "model failed") (fun _ _ _ => []) (fun s => s) 0)
    (mkFile (Js.str "a.png") [7%Z])
  = Err "model failed".
Proof.
  assert (H : ∃ r, enhanceOne stub_browser (mkFile (Js.str "a.png") [7%Z])
                     (mkOptions 2 1 1 0) = Ok r)
    by (eexists; vm_compute; reflexivity).
  destruct H as [r Hr].
  exact (proj1 (process_one_detection_failure
                  (mkEnv stub_browser (mkOptions 2 1 1 0) [] "casual" true
                     (fun _ => Err "model failed") (fun _ _ _ => [])
                     (fun s => s) 0)
                  (mkFile (Js.str "a.png") [7%Z]) r "model failed"
                  eq_refl Hr eq_refl)).
Defined.

(** ** [buildScript] *)

Lemma occurs_in_app_l sub a b :
  Script.occurs_in sub a → Script.occurs_in sub (a ++ b).
Proof.
  intros (x & y & ->). exists x, (y ++ b). by rewrite <- !app_assoc.
Qed.

Lemma occurs_in_app_r sub a b :
  Script.occurs_in sub b → Script.occurs_in sub (a ++ b).
Proof.
  intros (x & y & ->). exists (a ++ x), y. by rewrite <- !app_assoc.
Qed.

Lemma occurs_in_refl s : Script.occurs_in s s.
Proof. exists [], []. by rewrite app_nil_r. Qed.

Lemma occurs_in_join sep (parts : list jsstring) x :
  x ∈ parts → Script.occurs_in x (JsText.join sep parts).
Proof.
  induction parts as [| a parts IH]; [by intros ?%elem_of_nil |].
  intros [-> | Hx]%elem_of_cons.
  - destruct parts; [apply occurs_in_refl |].
    apply occurs_in_app_l, occurs_in_refl.
  - destruct parts as [| b parts]; [by apply elem_of_nil in Hx |].
    change (JsText.join sep (a :: b :: parts))
      with (a ++ sep ++ JsText.join sep (b :: parts)).
    by apply occurs_in_app_r, occurs_in_app_r, IH.
Qed.

Lemma enumerate_mentions lower (items : list jsstring) item :
  item ∈ items → Script.occurs_in (lower item) (Script.enumerate lower items).
Proof.
  intros Hin.
  destruct (exists_last (l := items)) as (init & final & ->);
    [by intros -> ; apply elem_of_nil in Hin |].
  assert (Hgen : Script.occurs_in (lower item)
            (JsText.join (Js.str ", ")
               (lower <$> take (length (init ++ [final]) - 1) (init ++ [final]))
             ++ Script.lit " et le "
             ++ lower (default [] (last (init ++ [final]))))).
  { rewrite last_snoc, length_app. cbn [length default].
    replace (length init + 1 - 1) with (length init) by lia.
    rewrite take_app_length.
    apply elem_of_app in Hin as [Hin | ->%list_elem_of_singleton].
    - apply occurs_in_app_l, occurs_in_join, list_elem_of_fmap. eauto.
    - apply occurs_in_app_r, occurs_in_app_r, occurs_in_refl. }
  unfold Script.enumerate.
  destruct init as [| a init]; [| destruct init; exact Hgen].
  cbn [app].
  apply elem_of_app in Hin as [Hin | ->%list_elem_of_singleton];
    [by apply elem_of_nil in Hin |].
  apply occurs_in_app_r, occurs_in_refl.
Qed.

(** X21: every item handed to [buildScript] is named in the script, in
    lower case. *)
Theorem buildScript_mentions_every_item
    (toLowerCase : jsstring → jsstring) (items : list jsstring)
    (brand : jsstring) (vibe : string) (item : jsstring) :
  item ∈ items →
  Script.occurs_in (toLowerCase item)
    (Script.buildScript toLowerCase items brand vibe).
Proof.
  intros Hin. unfold Script.buildScript.
  do 3 apply occurs_in_app_r. apply occurs_in_app_l.
  unfold Script.core. destruct items as [| a items]; [by apply elem_of_nil in Hin |].
  apply occurs_in_app_r, occurs_in_app_l. by apply enumerate_mentions.
Qed.

Lemma buildScript_mentions_every_item_witness :
  Script.occurs_in (Js.str "jacket")
    (Script.buildScript (fun s => s) [Js.str "sneaker"; Js.str "jacket"]
       (Js.str "Atelier") "street").
Proof.
  apply (buildScript_mentions_every_item (fun s => s)
           [Js.str "sneaker"; Js.str "jacket"] (Js.str "Atelier") "street"
           (Js.str "jacket")).
  apply list_elem_of_In. right. left. reflexivity.
Defined.


Example buildScript_street :
  Script.buildScript (fun s => s) [Js.str "sneaker"; Js.str "jacket"]
    (Js.str "Atelier") "street"
  = Script.lit "Style street du jour, effortless et super stylé. Atelier On adore sneaker et le jacket, c’est super flatteur et méga confortable. Ça match avec mes sneakers du moment et ça donne une vibe très cool. Dites-moi ce que vous en pensez et stay tuned pour la suite !".
Proof. by vm_compute. Qed.

(** ** [createVideoFromImage] and [onGenerateVideo] *)

(** X23: a video is returned exactly when the canvas has a context, the
    enhanced image loads, the recorder is accepted and the transcoding of
    what the recorder delivered succeeds.  The recorder is then given the
    361 frames of the counter values 0..360 in order, the transcoder the
    recorder's bytes as [video/webm], and the result is the transcoder's
    blob with a URL for it. *)
Theorem createVideoFromImage_ok_iff
    (P : VideoPlatform) (item : EnhancedImage) (vibe : string)
    (brand script : jsstring) (r : VideoResult) :
  createVideoFromImage P item vibe brand script = Ok r ↔
  vp_context P = true ∧ vp_recorder P = true ∧
  ∃ image mp4,
    vp_loadImage P (enhancedUrl item) = Some image ∧
    (transcodeToMp4 (vp_core P)
       (mkBlob (vp_record P
                  (frame_call (video_job (vp_math P) image vibe brand script) 360
                     <$> seqZ 0 361))
               "video/webm")).1 = Ok mp4 ∧
    r = mkVideoResult (vp_createObjectURL P (blob_bytes mp4)) mp4.
Proof.
  unfold createVideoFromImage.
  destruct (vp_context P); cbn [negb]; [| split; [done | by intros [? _]]].
  destruct (vp_loadImage P (enhancedUrl item)) as [image |]; cbn [bind_result].
  2: { split; [done | by intros (_ & _ & ? & ? & ? & _)]. }
  destruct (vp_recorder P); cbn [negb];
    [| split; [done | by intros (_ & ? & _)]].
  rewrite totalFrames_360.
  replace (Z.to_nat 360) with (Z.to_nat 360 + 0)%nat by lia.
  rewrite (frame_loop_spec _ 360 0) by lia.
  change (360 + 1)%Z with 361%Z. cbn [presented].
  destruct (transcodeToMp4 _ _).1 as [mp4 | e] eqn:Ht; cbn [bind_result].
  - split.
    + intros [= <-]. split_and!; [done | done |]. by exists image, mp4.
    + intros (_ & _ & image' & mp4' & [= <-] & Ht' & ->).
      rewrite Ht in Ht'. by inversion Ht'.
  - split; [done |]. intros (_ & _ & image' & mp4' & [= <-] & Ht' & _).
    rewrite Ht in Ht'. done.
Qed.

(** X24: generating a video never adds, removes or reorders gallery
    entries, nor touches the image data of any; it resets the busy flag.
    On failure the gallery is unchanged and the error goes to the console;
    on success every entry with the item's id gets the video and every
    other entry is left as it was. *)
Theorem onGenerateVideo_gallery
    (P : VideoPlatform) (vibe : string) (brandName : jsstring)
    (trim : jsstring → jsstring) (item : GalleryEntry) (st : VideoState) :
  let st' := onGenerateVideo P vibe brandName trim item st in
  videoBusy st' = false ∧
  g_item <$> gallery st' = g_item <$> gallery st ∧
  match createVideoFromImage P (g_item item) vibe (trim brandName)
          (script (g_item item)) with
  | Err e =>
      gallery st' = gallery st ∧ video_console st' = video_console st ++ [e]
  | Ok r =>
      video_console st' = video_console st ∧
      ∀ i entry, gallery st !! i = Some entry →
        gallery st' !! i
        = Some (if same_id (g_item entry) (g_item item)
                then mkEntry (g_item entry) (Some (videoUrl r))
                       (Some (videoBlob r))
                else entry)
  end.
Proof.
  unfold onGenerateVideo.
  destruct (createVideoFromImage _ _ _ _ _) as [r | e]; cbn.
  - split_and!; [done | | done |].
    + rewrite <- list_fmap_compose. apply list_fmap_ext.
      intros i entry _. simpl. by destruct (same_id _ _).
    + intros i entry Hi. by rewrite list_lookup_fmap, Hi.
  - done.
Qed.

(** Two entries sharing an id (two files of the same name enhanced in one
    batch) both get the video generated for one of them. *)
Example onGenerateVideo_same_id :
  gallery (onGenerateVideo (stub_platform working_core) "casual" [] (fun s => s)
             (mkEntry (stub_item "a.png" 5) None None)
             (mkVideoState
                [ mkEntry (stub_item "a.png" 5) None None;
                  mkEntry (stub_item "b.png" 5) None None;
                  mkEntry (stub_item "a.png" 5) None None ] true []))
  = [ mkEntry (stub_item "a.png" 5) (Some (Js.str "blob:" ++ [0; 0; 0; 32]%N))
        (Some (mkBlob [0; 0; 0; 32]%Z "video/mp4"));
      mkEntry (stub_item "b.png" 5) None None;
      mkEntry (stub_item "a.png" 5) (Some (Js.str "blob:" ++ [0; 0; 0; 32]%N))
        (Some (mkBlob [0; 0; 0; 32]%Z "video/mp4")) ].
Proof. by vm_compute. Qed.

(** ** [wrapText] on blank text *)

Lemma split_blank (text : jsstring) :
  Forall (fun c => c = Js.space) text →
  Forall (fun w => w = []) (Js.split text).
Proof.
  induction 1 as [| c text -> _ IH]; [by repeat constructor |].
  simpl. by constructor.
Qed.

Lemma wrap_fold_blank fontSize maxWidth (ws : list jsstring) :
  Forall (fun w => w = []) ws →
  foldl (wrap_step fontSize maxWidth) ([], []) ws = ([], []).
Proof.
  induction 1 as [| w ws -> _ IH]; [done |].
  cbn [foldl]. unfold wrap_step at 2. cbn [Js.truthy].
  by destruct (too_wide _ _ _).
Qed.

(** X25: a text that is empty or made of spaces only gives no line at
    all, whatever the font size and the width. *)
Theorem wrapText_blank (text : jsstring) (fontSize maxWidth : float) :
  Forall (fun c => c = Js.space) text →
  wrapText text fontSize maxWidth = [].
Proof.
  intros H. unfold wrapText.
  by rewrite wrap_fold_blank by (by apply split_blank).
Qed.

Lemma wrapText_blank_witness : wrapText (Js.str "   ") 28 680 = [].
Proof.
  apply wrapText_blank. repeat (constructor; [reflexivity |]). constructor.
Defined.
